(** * bayesian-playground: the numerical visualisation core

    A shallow embedding of the pure numerical functions behind the
    interactive Bayesian-statistics visualisations, and proofs of what the
    specification says about them.

    Modelled code:
    - [MCMCSamplingVisualizer.tsx]: the seeded linear congruential generator,
      the synthetic LogNormal data set, the unnormalised log-posterior
      [TARGET_LOG_PROB], the Metropolis-Hastings step [mhStep], the heat-map
      builder [buildContourGrid] and the [runSampler] callback;
    - [BetaBinomialUpdater]: [betaPDF] and the conjugate Beta-Binomial counts;
    - [PosteriorUpdateVisualization] and [ChapterInference]: the closed-form
      Normal-Normal update.

    JavaScript numbers are IEEE 754 binary64 values; they are modelled by
    Rocq's primitive floats, whose [+ - * /], [sqrt] and comparisons are the
    IEEE operations.  [Math.log], [Math.exp], [Math.cos] and [Math.sin] are
    left to the engine by ECMAScript ("implementation-approximated"): they are
    the fields of the class [Math], and every definition is parametric in it.
    [RefMath] is one executable instance, used to run the model.  The 32-bit
    state of the generator is an integer in [Z] with the wrap-around of
    [& 0xffffffff] written out.

    Layout: the program ([JS], [RefMath], [MCMC], [BetaBinomial],
    [PosteriorUpdateVisualization], [ChapterInference], and the smaller
    pieces [AcceptanceBadge], [BetaBinomialButtons], [PosteriorCurve],
    [Plot]); the vocabulary of the statements ([FloatSpec], [SamplerSpec],
    [PlotSpec], [Magnitude]); facts about binary64 arithmetic ([FloatFacts],
    [PrimFacts], [MagnitudeFacts]); the properties of the program the specification states
    ([SamplerFacts], [GridFacts], [TargetFacts], [BetaFacts],
    [NormalFacts]); and further properties of the same code
    ([MoreFloatFacts], [MoreSamplerFacts], [BadgeFacts], [MoreBetaFacts],
    [MoreNormalFacts]). *)

From Stdlib Require Import ZArith List Bool Lia Floats Permutation.
Import ListNotations.
Set Warnings "-inexact-float".

(* ================================================================== *)
(** * JavaScript numbers *)
(* ================================================================== *)

Module JS.
Local Open Scope float_scope.

(** An integer as a JavaScript number.  Exact for [|z| < 2^53], which covers
    every integer the modelled code converts (loop counters, counts, the
    generator's 32-bit state). *)
Definition of_int (z : Z) : float :=
  if (z <? 0)%Z then - of_uint63 (Uint63.of_Z (- z)) else of_uint63 (Uint63.of_Z z).

(** [ToInt32] and [ToUint32] of an integer-valued number. *)
Definition ToInt32 (z : Z) : Z := ((z + 2 ^ 31) mod 2 ^ 32 - 2 ^ 31)%Z.
Definition ToUint32 (z : Z) : Z := (z mod 2 ^ 32)%Z.

(** [a & 0xffffffff]: both operands go through [ToInt32]; the mask is [-1]
    as a 32-bit integer, so the result is [ToInt32 a]. *)
Definition and_ffffffff (z : Z) : Z :=
  ToInt32 (Z.land (ToInt32 z) (ToInt32 4294967295)).

(** [a >>> 0] on a 32-bit integer. *)
Definition ushr0 (z : Z) : Z := ToUint32 z.

(** [isFinite(v)] on a number. *)
Definition isFinite (v : float) : bool := is_finite v.

(** [Math.max(a, b)]: NaN if either argument is NaN, and [+0] is larger
    than [-0]. *)
Definition Math_max (a b : float) : float :=
  if is_nan a || is_nan b then nan
  else if a <? b then b
  else if b <? a then a
  else if get_sign a then b else a.

(** [Math.sqrt] is the IEEE square root in every engine. *)
Definition Math_sqrt (x : float) : float := PrimFloat.sqrt x.

Definition Math_PI : float := 3.141592653589793.

(** [x ** 2].  Engines compute an exponent of exactly 2 as [x * x]
    (fdlibm's [pow] returns [x*x] for [y = 2]). *)
Definition sq (x : float) : float := x * x.

End JS.

(** The transcendental functions of the host engine. *)
Class Math : Type := {
  Math_log : float -> float;
  Math_exp : float -> float;
  Math_cos : float -> float;
  Math_sin : float -> float
}.

(* ================================================================== *)
(** * A reference implementation of the transcendental functions *)
(* ================================================================== *)

(** An executable instance of [Math], accurate to a few units in the last
    place on the ranges this application uses.  It serves to run the model
    on concrete inputs. *)

Module RefMath.
Local Open Scope float_scope.

Fixpoint horner (cs : list float) (x : float) : float :=
  match cs with
  | [] => 0
  | c :: cs' => c + x * horner cs' x
  end.

(** Round to the nearest integer, for [|t| < 2^51]. *)
Definition round_int (t : float) : float :=
  (t + 6755399441055744) - 6755399441055744.

Definition float_to_Z (f : float) : Z :=
  match Prim2SF f with
  | S754_finite s m e => cond_Zopp s (Z.shiftl (Zpos m) e)
  | _ => 0%Z
  end.

Definition ln2_hi : float := 0x1.62e42feep-1.
Definition ln2_lo : float := 0x1.a39ef35793c76p-33.

(** [log (m * 2^e) = e * log 2 + 2 * atanh ((m-1)/(m+1))]. *)
Definition log_core (x : float) : float :=
  let (m0, e0) := Z.frexp x in
  let '(m, e) :=
    if m0 <? 0.7071067811865476 then (m0 * 2, (e0 - 1)%Z) else (m0, e0) in
  let f := (m - 1) / (m + 1) in
  let s := horner [1; 1/3; 1/5; 1/7; 1/9; 1/11; 1/13; 1/15; 1/17; 1/19;
                   1/21; 1/23; 1/25; 1/27] (f * f) in
  JS.of_int e * ln2_hi + (2 * f * s + JS.of_int e * ln2_lo).

Definition log (x : float) : float :=
  if is_nan x then nan
  else if x <? 0 then nan
  else if x =? 0 then neg_infinity
  else if x =? infinity then infinity
  else log_core x.

(** 1/k! for k = 0 .. n-1, starting from [c = 1/k!]. *)
Fixpoint inv_facts (n : nat) (k : Z) (c : float) : list float :=
  match n with
  | O => []
  | S n' => c :: inv_facts n' (k + 1)%Z (c / JS.of_int (k + 1))
  end.

Definition exp_core (x : float) : float :=
  let kf := round_int (x * 1.4426950408889634) in
  let r := (x - kf * ln2_hi) - kf * ln2_lo in
  Z.ldexp (horner (inv_facts 15 0 1) r) (float_to_Z kf).

Definition clamp01 (y : float) : float :=
  if y <=? 1 then (if 0 <=? y then y else 0) else 1.

Definition exp (x : float) : float :=
  if is_nan x then nan
  else if x =? 0 then 1
  else if x <=? 0 then
    if x <? -745.1332191019412 then 0 else clamp01 (exp_core x)
  else if 709.782712893384 <? x then infinity
  else exp_core x.

Definition pio2_1 : float := 0x1.921fb544p0.
Definition pio2_1t : float := 0x1.0b4611a626331p-34.

Definition trig_reduce (x : float) : Z * float :=
  let qf := round_int (x * 0.6366197723675814) in
  ((float_to_Z qf mod 4)%Z, (x - qf * pio2_1) - qf * pio2_1t).

(** Alternating 1/k! coefficients in [r^2]: [start = 1] for the sine
    (1/1!, -1/3!, ...) and [start = 0] for the cosine (1/0!, -1/2!, ...). *)
Fixpoint alt_facts (n : nat) (k : Z) (c : float) : list float :=
  match n with
  | O => []
  | S n' => c :: alt_facts n' (k + 2)%Z (- c / JS.of_int ((k + 1) * (k + 2)))
  end.

Definition sin_core (r : float) : float := r * horner (alt_facts 10 1 1) (r * r).
Definition cos_core (r : float) : float := horner (alt_facts 10 0 1) (r * r).

Definition sin (x : float) : float :=
  if negb (is_finite x) then nan
  else
    let (q, r) := trig_reduce x in
    if (q =? 0)%Z then sin_core r
    else if (q =? 1)%Z then cos_core r
    else if (q =? 2)%Z then - sin_core r
    else - cos_core r.

Definition cos (x : float) : float :=
  if negb (is_finite x) then nan
  else
    let (q, r) := trig_reduce x in
    if (q =? 0)%Z then cos_core r
    else if (q =? 1)%Z then - sin_core r
    else if (q =? 2)%Z then - cos_core r
    else sin_core r.

End RefMath.

Definition reference_Math : Math := {|
  Math_log := RefMath.log;
  Math_exp := RefMath.exp;
  Math_cos := RefMath.cos;
  Math_sin := RefMath.sin
|}.

(* ================================================================== *)
(** * A small state monad *)
(* ================================================================== *)

(** The generator returned by [seededRNG] is a closure over a mutable
    variable; calls to it are threaded through a state monad. *)

Definition State (S A : Type) : Type := S -> A * S.

Definition ret {S A : Type} (a : A) : State S A := fun s => (a, s).

Definition bind {S A B : Type} (m : State S A) (k : A -> State S B) : State S B :=
  fun s => let (a, s') := m s in k a s'.

Declare Scope state_scope.
Delimit Scope state_scope with state.
Notation "x <- m ;; k" := (bind m (fun x => k))
  (at level 61, m at next level, right associativity) : state_scope.

(* ================================================================== *)
(** * MCMCSamplingVisualizer.tsx *)
(* ================================================================== *)

Module MCMC.
Import JS.
Local Open Scope float_scope.

Record Point : Type := mkPoint { x : float; y : float }.

Definition SEED_DATA : Z := 42.
Definition N_OBS : nat := 80.
Definition TRUE_MU : float := 1.1.
Definition TRUE_SIG : float := 0.6.

(** ** The linear congruential generator

    [s = (s * 1664525 + 1013904223) & 0xffffffff; return (s >>> 0) / 4294967296].
    The product and sum are exact in binary64 for every 32-bit [s]
    (below [2^53]), so the state is an integer; [lcg_next] is exact for
    every seed with [|seed| <= 2^32], in particular for those of the seed
    slider (1 to 200) and for [SEED_DATA]. *)
Definition lcg_next (s : Z) : Z := and_ffffffff (s * 1664525 + 1013904223)%Z.

Definition lcg_uniform (s : Z) : float := of_int (ushr0 s) / 4294967296.

(** One call of the closure [u] (in [genData]) or of the closure returned
    by [seededRNG]. *)
Definition lcg_draw : State Z float :=
  fun s => let s' := lcg_next s in (lcg_uniform s', s').

Section WithMath.
Context {M : Math}.

(** ** The synthetic data set *)

(** The body of the Box-Muller loop, [k] iterations. *)
Fixpoint box_muller (k : nat) (normals : list float) : State Z (list float) :=
  match k with
  | O => ret normals
  | S k' =>
      (u1 <- lcg_draw ;;
       u2 <- lcg_draw ;;
       let z0 := Math_sqrt (-2 * Math_log (u1 + 1e-12)) * Math_cos (2 * Math_PI * u2) in
       let z1 := Math_sqrt (-2 * Math_log (u1 + 1e-12)) * Math_sin (2 * Math_PI * u2) in
       box_muller k' (normals ++ [z0; z1]))%state
  end.

(** [for (i = 0; i < n; i += 2)] runs [ceil (n / 2)] times. *)
Definition genData (seed : Z) (n : nat) (mu sig : float) : list float :=
  let normals := fst (box_muller (Nat.div2 (n + 1)) [] seed) in
  map (fun z => Math_exp (mu + sig * z)) (firstn n normals).

Definition DATA : list float := genData SEED_DATA N_OBS TRUE_MU TRUE_SIG.

Definition SUM_LOG_X : float :=
  fold_left (fun s x => s + Math_log x) DATA 0.

Definition SUM_LOG_X_SQ : float :=
  fold_left (fun s x => s + sq (Math_log x)) DATA 0.

(** ** Log posterior (unnormalised) *)

Definition logLik (mu sig : float) : float :=
  let sig2 := sig * sig in
  - of_int (Z.of_nat N_OBS) * Math_log sig
  - (1 / (2 * sig2))
    * (SUM_LOG_X_SQ - 2 * mu * SUM_LOG_X + of_int (Z.of_nat N_OBS) * mu * mu).

Definition logPriorMu (mu : float) : float := -0.5 * mu * mu.
Definition logPriorSig (sig : float) : float := -0.5 * sig * sig.

Definition TARGET_LOG_PROB (mu sig : float) : float :=
  if sig <=? 0 then neg_infinity
  else logLik mu sig + logPriorMu mu + logPriorSig sig.

(** ** Metropolis-Hastings step *)

(** What a step can touch: the generator's state, and a ghost counter of
    the calls to [TARGET_LOG_PROB] (the counter is not in the source; it
    records which evaluations a step performs). *)
Record Env : Type := mkEnv { rng_state : Z; target_evals : nat }.

Definition rng : State Env float :=
  fun e =>
    let (u, s') := lcg_draw (rng_state e) in
    (u, {| rng_state := s'; target_evals := target_evals e |}).

Definition eval_target (mu sig : float) : State Env float :=
  fun e =>
    (TARGET_LOG_PROB mu sig,
     {| rng_state := rng_state e; target_evals := S (target_evals e) |}).

Definition mhStep (muCurr sigCurr step : float) : State Env (float * float * bool) :=
  (u1 <- rng ;;
   let muProp := muCurr + (u1 * 2 - 1) * step in
   u2 <- rng ;;
   let sigProp := sigCurr + (u2 * 2 - 1) * step in
   if sigProp <=? 0 then ret (muCurr, sigCurr, false)
   else
     lp <- eval_target muProp sigProp ;;
     lc <- eval_target muCurr sigCurr ;;
     let logA := lp - lc in
     u3 <- rng ;;
     if Math_log (u3 + 1e-12) <? logA then ret (muProp, sigProp, true)
     else ret (muCurr, sigCurr, false))%state.

Definition seededRNG (seed : Z) : Env := {| rng_state := seed; target_evals := 0 |}.

(** ** Heat-map grid *)

Definition MU_MIN : float := 0.5.
Definition MU_MAX : float := 1.7.
Definition SIG_MIN : float := 0.2.
Definition SIG_MAX : float := 1.1.
Definition GRID_STEPS : nat := 50.

Definition grid_mu (i : nat) : float :=
  MU_MIN + (of_int (Z.of_nat i) / of_int (Z.of_nat GRID_STEPS - 1)) * (MU_MAX - MU_MIN).

Definition grid_sig (j : nat) : float :=
  SIG_MIN + (of_int (Z.of_nat j) / of_int (Z.of_nat GRID_STEPS - 1)) * (SIG_MAX - SIG_MIN).

(** The first pair of loops: fill the grid with log densities and track
    the largest finite one. *)
Definition fill_cell (target : float -> float -> float) (i : nat)
    (acc : list float * float) (j : nat) : list float * float :=
  let (row, maxV) := acc in
  let v := target (grid_mu i) (grid_sig j) in
  (row ++ [v], if isFinite v then Math_max maxV v else maxV).

Definition fill_row (target : float -> float -> float)
    (acc : list (list float) * float) (i : nat) : list (list float) * float :=
  let (grid, maxV) := acc in
  let (row, maxV') := fold_left (fill_cell target i) (seq 0 GRID_STEPS) ([], maxV) in
  (grid ++ [row], maxV').

(** The second pair of loops: exponentiate relative to the maximum. *)
Definition shade (maxV v : float) : float :=
  if isFinite v then Math_exp (v - maxV) else 0.

Definition buildContourGridWith (target : float -> float -> float) : list (list float) :=
  let (grid, maxV) := fold_left (fill_row target) (seq 0 GRID_STEPS) ([], neg_infinity) in
  map (map (shade maxV)) grid.

Definition buildContourGrid : list (list float) :=
  buildContourGridWith TARGET_LOG_PROB.

(** ** The component and its [runSampler] callback *)

Record Component : Type := mkComponent {
  samples : list Point;
  path : list Point;
  running : bool;
  numSamples : Z;
  stepSize : float;
  seed : Z;
  acceptance : option float
}.

(** Initial [useState] values. *)
Definition initial : Component :=
  {| samples := []; path := []; running := false; numSamples := 300;
     stepSize := 0.15; seed := 42; acceptance := None |}.

Definition burnIn : nat := 100.

(** The local variables of [runSampler] that the loop updates. *)
Record Loop : Type := mkLoop {
  mu : float;
  sig : float;
  newSamples : list Point;
  trajectory : list Point;
  accepted : Z;
  env : Env
}.

(** The body of [for (let i = 0; i < total; i++)]. *)
Definition loop_body (step : float) (l : Loop) (i : nat) : Loop :=
  let '(nm, ns, acc, e) := mhStep (mu l) (sig l) step (env l) in
  let here := {| x := nm; y := ns |} in
  {| mu := nm;
     sig := ns;
     newSamples :=
       if (burnIn <=? i)%nat then newSamples l ++ [here] else newSamples l;
     trajectory :=
       if (burnIn <=? i)%nat && (i <? burnIn + 80)%nat
       then trajectory l ++ [here] else trajectory l;
     accepted := if acc then (accepted l + 1)%Z else accepted l;
     env := e |}.

Definition loop_init (seed : Z) : Loop :=
  {| mu := 1.0; sig := 0.6; newSamples := [];
     trajectory := [{| x := 1.0; y := 0.6 |}];
     accepted := 0; env := seededRNG seed |}.

(** [numSamples] is an integer (the slider handler stores [parseInt] of the
    slider value), so the loop runs [max 0 total] times. *)
Definition run_loop (seed : Z) (step : float) (total : Z) : Loop :=
  fold_left (loop_body step) (seq 0 (Z.to_nat total)) (loop_init seed).

Definition runSampler (c : Component) : Component :=
  let total := (numSamples c + Z.of_nat burnIn)%Z in
  let l := run_loop (seed c) (stepSize c) total in
  {| samples := newSamples l;
     path := trajectory l;
     running := false;
     numSamples := numSamples c;
     stepSize := stepSize c;
     seed := seed c;
     acceptance := Some (of_int (accepted l) / of_int total) |}.

End WithMath.
End MCMC.

(* ================================================================== *)
(** * BetaBinomialUpdater *)
(* ================================================================== *)

Module BetaBinomial.
Import JS.
Local Open Scope float_scope.

Section WithMath.
Context {M : Math}.

(** The Lanczos coefficients [c] of [logGamma]. *)
Definition lanczos_c : list float :=
  [76.18009173; -86.50532033; 24.0140982; -1.23173957; 1.20865097e-3; -5.39523938e-6].

(** [for (j = 0; j < 6; j++) { y += 1; ser += c[j] / y; }] on [(y, ser)]. *)
Definition lanczos_step (acc : float * float) (cj : float) : float * float :=
  let (y, ser) := acc in
  let y' := y + 1 in
  (y', ser + cj / y').

Definition logGamma (z : float) : float :=
  let x2 := z in
  let tmp := z + 5.5 - (z + 0.5) * Math_log (z + 5.5) in
  let (_, ser) := fold_left lanczos_step lanczos_c (z, 1.0000000002) in
  - tmp + Math_log (2.5066282746 * ser / x2).

Definition logBeta (a b : float) : float :=
  logGamma a + logGamma b - logGamma (a + b).

Definition betaPDF (x a b : float) : float :=
  if (x <=? 0) || (1 <=? x) then 0
  else Math_exp ((a - 1) * Math_log x + (b - 1) * Math_log (1 - x) - logBeta a b).

End WithMath.

(** ** The component *)

Record Preset : Type := mkPreset { a : Z; b : Z }.

(** [PRESETS], without the display labels. *)
Definition PRESETS : list Preset :=
  [ {| a := 1; b := 1 |};      (* Uninformative *)
    {| a := 2; b := 8 |};      (* Skeptical (~20%) *)
    {| a := 6; b := 4 |};      (* Optimistic (~60%) *)
    {| a := 4; b := 6 |} ].    (* Informed (~40%) *)

Record Updater : Type := mkUpdater {
  priorPreset : nat;
  observations : list bool;
  animKey : Z
}.

Definition initial : Updater :=
  {| priorPreset := 0; observations := []; animKey := 0 |}.

(** The quantities recomputed on every render. *)
Record Derived : Type := mkDerived {
  priorA : Z;
  priorB : Z;
  successes : Z;
  failures : Z;
  postA : Z;
  postB : Z;
  n : Z;
  posteriorMean : float
}.

(** [PRESETS[priorPreset]] is [undefined] out of range and reading [.a]
    from it throws: [None]. *)
Definition render (u : Updater) : option Derived :=
  match nth_error PRESETS (priorPreset u) with
  | None => None
  | Some p =>
      let successes := Z.of_nat (length (filter (fun v => v) (observations u))) in
      let failures := Z.of_nat (length (filter (fun v => negb v) (observations u))) in
      let postA := (a p + successes)%Z in
      let postB := (b p + failures)%Z in
      Some {| priorA := a p;
              priorB := b p;
              successes := successes;
              failures := failures;
              postA := postA;
              postB := postB;
              n := Z.of_nat (length (observations u));
              posteriorMean := of_int postA / of_int (postA + postB) |}
  end.

Definition addObs (success : bool) (u : Updater) : Updater :=
  {| priorPreset := priorPreset u;
     observations := observations u ++ [success];
     animKey := (animKey u + 1)%Z |}.

Definition reset (u : Updater) : Updater :=
  {| priorPreset := priorPreset u;
     observations := [];
     animKey := (animKey u + 1)%Z |}.

(** The click handler of a prior button: [setPriorPreset(i); reset()]. *)
Definition selectPreset (i : nat) (u : Updater) : Updater :=
  reset {| priorPreset := i; observations := observations u; animKey := animKey u |}.

End BetaBinomial.

(* ================================================================== *)
(** * The Normal-Normal conjugate update *)
(* ================================================================== *)

(** [PosteriorUpdateVisualization]: the posterior drawn over prior and
    likelihood. *)
Module PosteriorUpdateVisualization.
Import JS.
Local Open Scope float_scope.

Definition posteriorVar (priorSigma dataSigma : float) : float :=
  1 / (1 / sq priorSigma + 1 / sq dataSigma).

Definition posteriorSigma (priorSigma dataSigma : float) : float :=
  Math_sqrt (posteriorVar priorSigma dataSigma).

Definition posteriorMu (priorMu priorSigma dataMu dataSigma : float) : float :=
  posteriorVar priorSigma dataSigma
  * (priorMu / sq priorSigma + dataMu / sq dataSigma).

End PosteriorUpdateVisualization.

(** [ChapterInference]: the same update, shown as numbers in the chapter. *)
Module ChapterInference.
Import JS.
Local Open Scope float_scope.

Definition prec0 (priorSigma : float) : float := 1 / sq priorSigma.
Definition precD (dataSigma : float) : float := 1 / sq dataSigma.

Definition posteriorSigma (priorSigma dataSigma : float) : float :=
  Math_sqrt (1 / (prec0 priorSigma + precD dataSigma)).

Definition posteriorMu (priorMu priorSigma dataMu dataSigma : float) : float :=
  sq (posteriorSigma priorSigma dataSigma)
  * (prec0 priorSigma * priorMu + precD dataSigma * dataMu).

End ChapterInference.

(* ================================================================== *)
(** * More of the components *)
(* ================================================================== *)

(** ** The acceptance badge of [MCMCSamplingVisualizer]

    Shown once [acceptance] is not [null]: a colour class chosen by
    [acceptance > 0.20 && acceptance < 0.5] and a message chosen by
    [acceptance < 0.20 ? ... : acceptance > 0.5 ? ... : 'good'].  The
    percentage text, [(acceptance * 100).toFixed(0)], is left out. *)
Module AcceptanceBadge.
Import MCMC.
Local Open Scope float_scope.

Inductive Colour : Type := Emerald | Amber.
Inductive Advice : Type := TooLow | TooHigh | Good.

Definition colour (acceptance : float) : Colour :=
  if (0.20 <? acceptance) && (acceptance <? 0.5) then Emerald else Amber.

Definition advice (acceptance : float) : Advice :=
  if acceptance <? 0.20 then TooLow
  else if 0.5 <? acceptance then TooHigh
  else Good.

Definition badge (c : Component) : option (Colour * Advice) :=
  match acceptance c with
  | None => None
  | Some a => Some (colour a, advice a)
  end.

End AcceptanceBadge.

(** ** The "+5 random" button of [BetaBinomialUpdater]

    [for (let i = 0; i < 5; i++) addObs(Math.random() < 0.4)].  [addObs]
    uses functional state updates, so the five calls compose.  The values
    [Math.random()] returns are an input: [random i] is the one of the
    [i]-th call. *)
Module BetaBinomialButtons.
Import BetaBinomial.
Local Open Scope float_scope.

Definition addFiveRandom (random : nat -> float) (u : Updater) : Updater :=
  fold_left (fun u' i => addObs (random i <? 0.4) u') (seq 0 5) u.

End BetaBinomialButtons.

(** ** The density drawn by [PosteriorUpdateVisualization]

    The inner function [pdf] of [getPath (mu, sigma)]; [Math.pow (z, 2)]
    is [z * z].  The path string built from it is left out. *)
Module PosteriorCurve.
Import JS.
Local Open Scope float_scope.

Section WithMath.
Context {M : Math}.

Definition pdf (mu sigma x : float) : float :=
  let coef := 1 / (Math_max sigma 0.1 * Math_sqrt (2 * Math_PI)) in
  let exp := -0.5 * sq ((x - mu) / Math_max sigma 0.1) in
  coef * Math_exp exp.

End WithMath.
End PosteriorCurve.

(** ** Plot coordinates of [MCMCSamplingVisualizer]

    [toSVG (mu, sig)] places a point of the parameter plane on the
    [W] x [H] drawing; the trajectory vertices and the sample dots are the
    images of the recorded points. *)
Module Plot.
Import MCMC.
Local Open Scope float_scope.

Definition W : float := 600.
Definition H : float := 380.

Definition toSVG (mu sig : float) : Point :=
  {| x := ((mu - MU_MIN) / (MU_MAX - MU_MIN)) * W;
     y := H - ((sig - SIG_MIN) / (SIG_MAX - SIG_MIN)) * H |}.

End Plot.

(* ================================================================== *)
(** * Vocabulary of the specifications *)
(* ================================================================== *)

(** ** Binary64 numbers through their specification *)

Module FloatSpec.
Local Open Scope Z_scope.

Definition sf_is_nan (f : spec_float) : bool :=
  match f with S754_nan => true | _ => false end.

Definition sf_is_finite (f : spec_float) : bool :=
  match f with S754_zero _ | S754_finite _ _ _ => true | _ => false end.

(** The result of an operation carries sign [s]: it is a zero, an infinity
    or a finite number of that sign, and not NaN. *)
Definition sf_signed (s : bool) (f : spec_float) : Prop :=
  match f with
  | S754_zero s' | S754_infinity s' | S754_finite s' _ _ => s' = s
  | S754_nan => False
  end.

(** [SFcompare] orders non-NaN numbers lexicographically by class and sign,
    then exponent, then mantissa; [sf_key] makes this an order on integer
    triples. *)
Definition sf_key (f : spec_float) : Z * Z * Z :=
  match f with
  | S754_nan | S754_zero _ => (0, 0, 0)
  | S754_infinity s => (if s then -2 else 2, 0, 0)
  | S754_finite s m e => if s then (-1, - e, - Zpos m) else (1, e, Zpos m)
  end.

Definition key_le (a b : Z * Z * Z) : Prop :=
  let '(a1, a2, a3) := a in
  let '(b1, b2, b3) := b in
  a1 < b1 \/ (a1 = b1 /\ (a2 < b2 \/ (a2 = b2 /\ a3 <= b3))).

Definition key_lt (a b : Z * Z * Z) : Prop :=
  let '(a1, a2, a3) := a in
  let '(b1, b2, b3) := b in
  a1 < b1 \/ (a1 = b1 /\ (a2 < b2 \/ (a2 = b2 /\ a3 < b3))).

End FloatSpec.

(** ** The Markov chain and the grid values *)

Module SamplerSpec.
Import JS MCMC.
Local Open Scope float_scope.

Section WithMath.
Context {M : Math}.

Definition point_of (r : float * float * bool) : Point :=
  {| x := fst (fst r); y := snd (fst r) |}.

Definition was_accepted (r : float * float * bool) : bool := snd r.

(** The chain: the results [(mu, sigma, accepted)] of [k] successive calls
    of [mhStep], each from the state the previous one returned. *)
Fixpoint chain (step : float) (k : nat) (mu sig : float) (e : Env)
  : list (float * float * bool) :=
  match k with
  | O => []
  | S k' =>
      let '(nm, ns, acc, e') := mhStep mu sig step e in
      (nm, ns, acc) :: chain step k' nm ns e'
  end.

(** The chain that one run of the sampler walks: [total] steps from
    [(1.0, 0.6)] with a fresh generator. *)
Definition run_chain (c : Component) : list (float * float * bool) :=
  chain (stepSize c) (Z.to_nat (numSamples c + Z.of_nat burnIn)) 1.0 0.6
        (seededRNG (seed c)).

Definition start : Point := {| x := 1.0; y := 0.6 |}.

(** [sigma > 0], as the comparison the code would make. *)
Definition sigma_positive (p : Point) : Prop := (0 <? y p) = true.

(** Equality of points, decided on the bits of the coordinates. *)
Definition point_eqb (p q : Point) : bool :=
  Leibniz.eqb (x p) (x q) && Leibniz.eqb (y p) (y q).

(** How [buildContourGrid] updates [maxV] on one evaluation. *)
Definition track_max (maxV v : float) : float :=
  if isFinite v then Math_max maxV v else maxV.

(** The log densities in row [i] of the grid, and in the whole grid. *)
Definition grid_row (target : float -> float -> float) (i : nat) : list float :=
  map (fun j => target (grid_mu i) (grid_sig j)) (seq 0 GRID_STEPS).

Definition grid_values (target : float -> float -> float) : list (list float) :=
  map (grid_row target) (seq 0 GRID_STEPS).

(** The value of [maxV] when the first pair of loops ends. *)
Definition grid_max (target : float -> float -> float) : float :=
  fold_left track_max (concat (grid_values target)) neg_infinity.

(** [maxV] is [-Infinity] until a finite value is seen and finite afterwards. *)
Definition max_state (m : float) : Prop := m = neg_infinity \/ is_finite m = true.

(** What it means for [g] to be the peak-normalised intensity grid of the
    log density [target]: a [GRID_STEPS] by [GRID_STEPS] array whose cells
    lie in [0, 1], are 0 where the log density is not finite, and reach
    exactly 1 somewhere unless the log density is finite nowhere on the
    grid, in which case every cell is 0. *)
Definition normalised_grid (target : float -> float -> float)
    (g : list (list float)) : Prop :=
  let v i j := target (grid_mu i) (grid_sig j) in
  let cell i j := nth j (nth i g []) 0 in
  length g = GRID_STEPS /\
  (forall i, (i < GRID_STEPS)%nat -> length (nth i g []) = GRID_STEPS) /\
  (forall i j, (i < GRID_STEPS)%nat -> (j < GRID_STEPS)%nat ->
     (0 <=? cell i j) = true /\ (cell i j <=? 1) = true /\
     (isFinite (v i j) = false -> cell i j = 0)) /\
  ((exists i j, (i < GRID_STEPS)%nat /\ (j < GRID_STEPS)%nat /\
                isFinite (v i j) = true) ->
   exists i j, (i < GRID_STEPS)%nat /\ (j < GRID_STEPS)%nat /\ cell i j = 1) /\
  ((forall i j, (i < GRID_STEPS)%nat -> (j < GRID_STEPS)%nat ->
                isFinite (v i j) = false) ->
   forall i j, (i < GRID_STEPS)%nat -> (j < GRID_STEPS)%nat -> cell i j = 0).

End WithMath.

(** ** Concrete component states *)

(** A component holding the results of some earlier run. *)
Definition stale : Component :=
  {| samples := [start]; path := [start; start]; running := true;
     numSamples := 300; stepSize := 0.15; seed := 42;
     acceptance := Some 0.5 |}.

(** The component after moving the sample-count slider to its minimum. *)
Definition fifty : Component :=
  {| samples := []; path := []; running := false; numSamples := 50;
     stepSize := 0.15; seed := 42; acceptance := None |}.

End SamplerSpec.

(** ** Points that can be drawn *)

Module PlotSpec.
Import MCMC.

(** Neither coordinate is NaN. *)
Definition no_NaN (p : Point) : Prop :=
  is_nan (x p) = false /\ is_nan (y p) = false.

(** A finite binary64 number other than the two zeros. *)
Definition finite_nonzero (c : float) : bool :=
  match Prim2SF c with S754_finite _ _ _ => true | _ => false end.

End PlotSpec.

(** ** Magnitudes of binary64 numbers

    Bounds on the size of a number through its mantissa and exponent:
    a finite number [m * 2^e] whose mantissa has [d] binary digits lies in
    [[2^(d+e-1), 2^(d+e))]. *)
Module Magnitude.
Local Open Scope Z_scope.

Definition valid (f : spec_float) : Prop :=
  SpecFloat.valid_binary prec emax f = true.

(** [|f| < 2^k], for a zero or a finite number. *)
Definition sf_mag_le (k : Z) (f : spec_float) : Prop :=
  match f with
  | S754_zero _ => True
  | S754_finite _ m e => Zpos (digits2_pos m) + e <= k
  | _ => False
  end.

(** [2^(k-1) <= |f|], for a finite number other than zero. *)
Definition sf_mag_ge (k : Z) (f : spec_float) : Prop :=
  match f with
  | S754_finite _ m e => k <= Zpos (digits2_pos m) + e
  | _ => False
  end.

Definition below (k : Z) (x : float) : Prop := sf_mag_le k (Prim2SF x).
Definition above (k : Z) (x : float) : Prop := sf_mag_ge k (Prim2SF x).

End Magnitude.

(* ================================================================== *)
(** * Facts about binary64 arithmetic *)
(* ================================================================== *)

(** Everything here follows from the specification of the primitive
    operations ([add_spec], [sub_spec], [ltb_spec], ...), by case analysis
    on the specification-level value [Prim2SF x] of each operand. *)

Module FloatFacts.
Import FloatSpec.
Local Open Scope Z_scope.

(** ** Rounding keeps the sign *)

Lemma shr_1_nonneg mrs : 0 <= shr_m mrs -> 0 <= shr_m (shr_1 mrs).
Proof.
  destruct mrs as [m r s]. cbn [shr_m shr_1].
  destruct m as [|p|p]; [|destruct p|]; cbn [shr_m]; lia.
Qed.

Lemma iter_pos_nonneg p : forall mrs,
  0 <= shr_m mrs -> 0 <= shr_m (iter_pos shr_1 p mrs).
Proof.
  induction p as [p IH|p IH|]; intros mrs H; cbn [iter_pos].
  - apply IH, IH. now apply shr_1_nonneg.
  - now apply IH, IH.
  - now apply shr_1_nonneg.
Qed.

Lemma shr_fexp_nonneg m e l :
  0 <= m -> 0 <= shr_m (fst (shr_fexp prec emax m e l)).
Proof.
  intros H. unfold shr_fexp, shr.
  assert (H0 : 0 <= shr_m (shr_record_of_loc m l)) by (destruct l as [|[]]; exact H).
  destruct (fexp prec emax (Zdigits2 m + e) - e); cbn [fst]; auto.
  now apply iter_pos_nonneg.
Qed.

Lemma round_nearest_even_nonneg m l : 0 <= m -> 0 <= round_nearest_even m l.
Proof.
  intros H. unfold round_nearest_even.
  destruct l as [|[]]; try destruct (Z.even m); lia.
Qed.

Lemma binary_round_aux_signed s m e l :
  0 <= m -> sf_signed s (binary_round_aux prec emax s m e l).
Proof.
  intros H. unfold binary_round_aux.
  pose proof (shr_fexp_nonneg m e l H) as H1.
  destruct (shr_fexp prec emax m e l) as [mrs' e'].
  cbn [fst] in H1.
  pose proof (shr_fexp_nonneg _ e' loc_Exact
                (round_nearest_even_nonneg _ (loc_of_shr_record mrs') H1)) as H2.
  destruct (shr_fexp prec emax _ e' loc_Exact) as [mrs'' e''].
  cbn [fst] in H2.
  destruct (shr_m mrs'') as [|p|p]; [reflexivity| |lia].
  destruct (e'' <=? emax - prec); reflexivity.
Qed.

Lemma binary_round_signed s m e : sf_signed s (binary_round prec emax s m e).
Proof.
  unfold binary_round.
  destruct (shl_align m e _) as [mz ez].
  apply binary_round_aux_signed. lia.
Qed.

Lemma binary_normalize_nonpos d e :
  d <= 0 -> SFleb (binary_normalize prec emax d e false) (S754_zero false) = true.
Proof.
  intros H. destruct d as [|p|p]; [reflexivity|lia|].
  cbn [binary_normalize].
  pose proof (binary_round_signed true p e) as Hs.
  destruct (binary_round prec emax true p e) as [s|s| |s m' e'];
    cbn [sf_signed] in Hs; subst; try contradiction; reflexivity.
Qed.

(** ** Valid mantissas and exponents *)

Lemma digits2_bounds m :
  2 ^ (Zpos (digits2_pos m) - 1) <= Zpos m < 2 ^ Zpos (digits2_pos m).
Proof.
  induction m as [p IH|p IH|]; cbn [digits2_pos].
  - rewrite Pos2Z.inj_succ.
    replace (Z.succ (Zpos (digits2_pos p)) - 1) with (Z.succ (Zpos (digits2_pos p) - 1)) by lia.
    rewrite !Z.pow_succ_r by lia. lia.
  - rewrite Pos2Z.inj_succ.
    replace (Z.succ (Zpos (digits2_pos p)) - 1) with (Z.succ (Zpos (digits2_pos p) - 1)) by lia.
    rewrite !Z.pow_succ_r by lia. lia.
  - cbn. lia.
Qed.

Lemma shl_align_fst m e e' :
  e' <= e -> Zpos (fst (shl_align m e e')) = Zpos m * 2 ^ (e - e').
Proof.
  intros H. unfold shl_align.
  destruct (e' - e) as [|d|d] eqn:E; cbn [fst].
  - replace (e - e') with 0 by lia. lia.
  - lia.
  - replace (e - e') with (Zpos d) by lia.
    change (Pos.iter xO m d) with (Zpower.shift_pos d m).
    rewrite Zpower.shift_pos_correct. change (Z.pow_pos 2 d) with (2 ^ Zpos d). lia.
Qed.

Lemma valid_finite s m e :
  SpecFloat.valid_binary prec emax (S754_finite s m e) = true ->
  (Zpos (digits2_pos m) = 53 /\ -1074 <= e) \/ (e = -1074 /\ Zpos (digits2_pos m) <= 53).
Proof.
  cbn [SpecFloat.valid_binary]. unfold bounded, canonical_mantissa, fexp, emin, prec, emax.
  intros H. apply andb_prop in H. destruct H as [H _].
  apply Z.eqb_eq in H. lia.
Qed.

Lemma valid_normal s m e :
  SpecFloat.valid_binary prec emax (S754_finite s m e) = true -> -1074 < e ->
  2 ^ 52 <= Zpos m.
Proof.
  intros H He. destruct (valid_finite _ _ _ H) as [[Hd _]|[? _]]; [|lia].
  pose proof (digits2_bounds m) as Hb. rewrite Hd in Hb. apply Hb.
Qed.

Lemma valid_mantissa s m e :
  SpecFloat.valid_binary prec emax (S754_finite s m e) = true ->
  Zpos m < 2 ^ 53 /\ -1074 <= e.
Proof.
  intros H. pose proof (digits2_bounds m) as Hb.
  assert (Hd : Zpos (digits2_pos m) <= 53 /\ -1074 <= e)
    by (destruct (valid_finite _ _ _ H) as [[? ?]|[? ?]]; lia).
  split; [|lia]. eapply Z.lt_le_trans; [apply Hb|].
  apply Z.pow_le_mono_r; lia.
Qed.

(** A lower exponent means a smaller magnitude. *)
Lemma valid_exponent_lt s1 m1 e1 s2 m2 e2 :
  SpecFloat.valid_binary prec emax (S754_finite s1 m1 e1) = true ->
  SpecFloat.valid_binary prec emax (S754_finite s2 m2 e2) = true ->
  e1 < e2 ->
  Zpos m1 < Zpos m2 * 2 ^ (e2 - e1).
Proof.
  intros H1 H2 He.
  destruct (valid_mantissa _ _ _ H1) as [Hm1 He1].
  pose proof (valid_normal _ _ _ H2 ltac:(lia)) as Hm2.
  assert (2 ^ 1 <= 2 ^ (e2 - e1)) by (apply Z.pow_le_mono_r; lia).
  change (2 ^ 1) with 2 in *. change (2 ^ 53) with (2 * 2 ^ 52) in Hm1. nia.
Qed.

(** ** Comparisons *)

Lemma pos_compare_cont_spec m1 m2 :
  CompareSpec (m1 = m2) (Zpos m1 < Zpos m2) (Zpos m2 < Zpos m1)
              (PosDef.Pos.compare_cont Eq m1 m2).
Proof.
  change (PosDef.Pos.compare_cont Eq m1 m2) with (Pos.compare m1 m2).
  destruct (Pos.compare_spec m1 m2); constructor; auto; lia.
Qed.

(** Split on the outcome of every exponent and mantissa comparison in
    sight, keeping the arithmetic fact each outcome stands for. *)
Ltac compare_case E t :=
  let c := fresh "c" in
  let Hc := fresh "Hc" in
  remember t as c eqn:Hc; clear Hc; destruct E.

Ltac compare_all :=
  repeat match goal with
  | |- context [Z.compare ?a ?b] =>
      let E := fresh "E" in
      pose proof (Z.compare_spec a b) as E; compare_case E (Z.compare a b)
  | H : context [Z.compare ?a ?b] |- _ =>
      let E := fresh "E" in
      pose proof (Z.compare_spec a b) as E; compare_case E (Z.compare a b)
  | |- context [PosDef.Pos.compare_cont Eq ?a ?b] =>
      let E := fresh "E" in
      pose proof (pos_compare_cont_spec a b) as E;
      compare_case E (PosDef.Pos.compare_cont Eq a b)
  | H : context [PosDef.Pos.compare_cont Eq ?a ?b] |- _ =>
      let E := fresh "E" in
      pose proof (pos_compare_cont_spec a b) as E;
      compare_case E (PosDef.Pos.compare_cont Eq a b)
  end.

Ltac key_cases x y :=
  destruct x as [[]|[]| |[] ? ?], y as [[]|[]| |[] ? ?];
  cbn [SFcompare sf_is_nan sf_key key_le key_lt]; try discriminate; intros _ _;
  compare_all; subst; cbn [CompOpp];
  split; intros ?; solve [reflexivity | discriminate | lia | exfalso; lia].

Lemma SFleb_key x y :
  sf_is_nan x = false -> sf_is_nan y = false ->
  (SFleb x y = true <-> key_le (sf_key x) (sf_key y)).
Proof. unfold SFleb. key_cases x y. Qed.

Lemma SFltb_key x y :
  sf_is_nan x = false -> sf_is_nan y = false ->
  (SFltb x y = true <-> key_lt (sf_key x) (sf_key y)).
Proof. unfold SFltb. key_cases x y. Qed.

Lemma SFleb_not_nan x y :
  SFleb x y = true -> sf_is_nan x = false /\ sf_is_nan y = false.
Proof. destruct x, y; cbn; auto; discriminate. Qed.

Lemma SFleb_trans x y z : SFleb x y = true -> SFleb y z = true -> SFleb x z = true.
Proof.
  intros H1 H2.
  destruct (SFleb_not_nan _ _ H1) as [Nx Ny], (SFleb_not_nan _ _ H2) as [_ Nz].
  apply SFleb_key in H1, H2; auto. apply SFleb_key; auto.
  unfold key_le in *.
  destruct (sf_key x) as [[? ?] ?], (sf_key y) as [[? ?] ?], (sf_key z) as [[? ?] ?].
  lia.
Qed.

Lemma SFcompare_total x y :
  sf_is_nan x = false -> sf_is_nan y = false ->
  SFltb x y = false -> SFltb y x = false ->
  SFleb x y = true /\ SFleb y x = true.
Proof.
  intros Nx Ny H1 H2.
  assert (K1 : ~ key_lt (sf_key x) (sf_key y))
    by (intros K; apply SFltb_key in K; auto; congruence).
  assert (K2 : ~ key_lt (sf_key y) (sf_key x))
    by (intros K; apply SFltb_key in K; auto; congruence).
  split; apply SFleb_key; auto; unfold key_le, key_lt in *;
    destruct (sf_key x) as [[? ?] ?], (sf_key y) as [[? ?] ?]; lia.
Qed.

Lemma SFltb_leb x y : SFltb x y = true -> SFleb x y = true.
Proof.
  unfold SFltb, SFleb. destruct (SFcompare x y) as [[]|]; auto.
Qed.

Lemma SFltb_not_nan x y :
  SFltb x y = true -> sf_is_nan x = false /\ sf_is_nan y = false.
Proof. destruct x, y; cbn; auto; discriminate. Qed.

Lemma SFltb_not_leb x y : SFltb x y = true -> SFleb y x = false.
Proof.
  intros H. destruct (SFltb_not_nan _ _ H) as [Nx Ny].
  destruct (SFleb y x) eqn:E; [|reflexivity].
  apply SFltb_key in H; auto. apply SFleb_key in E; auto.
  unfold key_le, key_lt in *.
  destruct (sf_key x) as [[? ?] ?], (sf_key y) as [[? ?] ?]. lia.
Qed.

Lemma SFcompare_refl f : sf_is_nan f = false -> SFcompare f f = Some Eq.
Proof.
  destruct f as [s|s| |s m e]; cbn [SFcompare sf_is_nan]; try discriminate; intros _.
  - reflexivity.
  - destruct s; reflexivity.
  - rewrite Z.compare_refl, Pos.compare_cont_refl. destruct s; reflexivity.
Qed.

(** ** Subtraction of ordered finite numbers *)

Lemma SFsub_nonpos x y :
  SpecFloat.valid_binary prec emax x = true ->
  SpecFloat.valid_binary prec emax y = true ->
  sf_is_finite x = true -> sf_is_finite y = true ->
  SFleb x y = true ->
  SFleb (SF64sub x y) (S754_zero false) = true.
Proof.
  intros Vx Vy Fx Fy Hle.
  destruct x as [sx|sx| |sx mx ex], y as [sy|sy| |sy my ey]; try discriminate.
  - destruct sx, sy; reflexivity.
  - destruct sy; [discriminate|]. destruct sx; reflexivity.
  - destruct sx; [|discriminate]. reflexivity.
  - unfold SF64sub, SFsub. apply binary_normalize_nonpos.
    rewrite !shl_align_fst by lia.
    assert (0 < 2 ^ (ex - Z.min ex ey)) by (apply Z.pow_pos_nonneg; lia).
    assert (0 < 2 ^ (ey - Z.min ex ey)) by (apply Z.pow_pos_nonneg; lia).
    unfold SFleb, SFcompare in Hle.
    destruct sx, sy; cbn [cond_Zopp]; try discriminate Hle; [| nia |];
      compare_all; cbn in Hle; try discriminate Hle; subst;
      rewrite ?Z.min_id, ?Z.sub_diag in *; change (2 ^ 0) with 1; try lia;
      match goal with
      | Hlt : ey < ex |- _ =>
          rewrite Z.min_r, Z.sub_diag by lia; change (2 ^ 0) with 1;
          pose proof (valid_exponent_lt _ _ _ _ _ _ Vy Vx Hlt); lia
      | Hlt : ex < ey |- _ =>
          rewrite Z.min_l, Z.sub_diag by lia; change (2 ^ 0) with 1;
          pose proof (valid_exponent_lt _ _ _ _ _ _ Vx Vy Hlt); lia
      end.
Qed.

Lemma SFsub_eq_zero x y :
  sf_is_finite x = true -> sf_is_finite y = true ->
  SFeqb x y = true ->
  SFeqb (SF64sub x y) (S754_zero false) = true.
Proof.
  intros Fx Fy Heq.
  destruct x as [sx|sx| |sx mx ex], y as [sy|sy| |sy my ey]; try discriminate.
  - destruct sx, sy; reflexivity.
  - unfold SFeqb, SFcompare in Heq. destruct sy; discriminate.
  - unfold SFeqb, SFcompare in Heq. destruct sx; discriminate.
  - unfold SFeqb, SFcompare in Heq.
    assert (E : sx = sy /\ ex = ey /\ mx = my).
    { destruct sx, sy; try discriminate Heq;
        compare_all; cbn in Heq; try discriminate Heq; auto. }
    destruct E as (-> & -> & ->).
    unfold SF64sub, SFsub. rewrite Z.sub_diag. reflexivity.
Qed.

End FloatFacts.

(** ** The same facts on primitive floats *)

Module PrimFacts.
Import FloatSpec FloatFacts.
Local Open Scope float_scope.

Lemma is_nan_spec x : is_nan x = sf_is_nan (Prim2SF x).
Proof.
  unfold is_nan. rewrite eqb_spec. unfold SFeqb.
  destruct (Prim2SF x) as [s|s| |s m e] eqn:E; try reflexivity;
    rewrite SFcompare_refl; reflexivity.
Qed.

Lemma is_finite_spec x : is_finite x = sf_is_finite (Prim2SF x).
Proof.
  unfold is_finite, is_infinity. rewrite is_nan_spec, eqb_spec, abs_spec.
  destruct (Prim2SF x) as [s|s| |s m e]; reflexivity.
Qed.

Lemma is_finite_not_nan x : is_finite x = true -> is_nan x = false.
Proof.
  rewrite is_finite_spec, is_nan_spec. destruct (Prim2SF x); auto; discriminate.
Qed.

Lemma leb_not_nan x y : (x <=? y) = true -> is_nan x = false /\ is_nan y = false.
Proof. rewrite leb_spec, !is_nan_spec. apply SFleb_not_nan. Qed.

Lemma ltb_nan_r x y : is_nan y = true -> (x <? y) = false.
Proof.
  rewrite is_nan_spec, ltb_spec. destruct (Prim2SF y); try discriminate.
  intros _. unfold SFltb. destruct (Prim2SF x); reflexivity.
Qed.

Lemma leb_nan_l x y : is_nan x = true -> (x <=? y) = false.
Proof.
  rewrite is_nan_spec, leb_spec. destruct (Prim2SF x); try discriminate.
  reflexivity.
Qed.

Lemma is_nan_add_r x y : is_nan y = true -> is_nan (x + y) = true.
Proof.
  rewrite !is_nan_spec, add_spec. destruct (Prim2SF y); try discriminate.
  intros _. destruct (Prim2SF x); reflexivity.
Qed.

Lemma is_nan_sub_l x y : is_nan x = true -> is_nan (x - y) = true.
Proof.
  rewrite !is_nan_spec, sub_spec. destruct (Prim2SF x); try discriminate.
  intros _. reflexivity.
Qed.

Lemma is_nan_mul_r x y : is_nan y = true -> is_nan (x * y) = true.
Proof.
  rewrite !is_nan_spec, mul_spec. destruct (Prim2SF y); try discriminate.
  intros _. destruct (Prim2SF x); reflexivity.
Qed.

(** [!(x <= 0)] leaves [x > 0] or NaN. *)
Lemma not_leb_0 x : (x <=? 0) = false -> is_nan x = true \/ (0 <? x) = true.
Proof.
  rewrite leb_spec, ltb_spec, is_nan_spec.
  change (Prim2SF 0) with (S754_zero false).
  destruct (Prim2SF x) as [s|s| |s m e]; unfold SFleb, SFltb; simpl; auto;
    destruct s; auto; discriminate.
Qed.

Lemma is_finite_add x y :
  is_finite (x + y) = true -> is_finite x = true /\ is_finite y = true.
Proof.
  rewrite !is_finite_spec, add_spec.
  destruct (Prim2SF x) as [s|s| |s m e], (Prim2SF y) as [s'|s'| |s' m' e'];
    simpl; auto; try discriminate; destruct s, s'; simpl; auto; discriminate.
Qed.

Lemma leb_trans x y z : (x <=? y) = true -> (y <=? z) = true -> (x <=? z) = true.
Proof. rewrite !leb_spec. apply SFleb_trans. Qed.

Lemma leb_refl x : is_nan x = false -> (x <=? x) = true.
Proof.
  rewrite is_nan_spec, leb_spec. intros H. unfold SFleb.
  now rewrite SFcompare_refl.
Qed.

Lemma eqb_refl x : is_nan x = false -> (x =? x) = true.
Proof.
  rewrite is_nan_spec, eqb_spec. intros H. unfold SFeqb.
  now rewrite SFcompare_refl.
Qed.

Lemma ltb_leb x y : (x <? y) = true -> (x <=? y) = true.
Proof. rewrite ltb_spec, leb_spec. apply SFltb_leb. Qed.

Lemma ltb_not_leb x y : (x <? y) = true -> (y <=? x) = false.
Proof. rewrite ltb_spec, leb_spec. apply SFltb_not_leb. Qed.

Lemma not_ltb_leb x y :
  is_nan x = false -> is_nan y = false ->
  (x <? y) = false -> (y <? x) = false ->
  (x <=? y) = true /\ (y <=? x) = true.
Proof. rewrite !is_nan_spec, !ltb_spec, !leb_spec. apply SFcompare_total. Qed.

Lemma finite_not_below_neg_infinity x :
  is_finite x = true -> (x <=? neg_infinity) = false.
Proof.
  rewrite is_finite_spec, leb_spec.
  change (Prim2SF neg_infinity) with (S754_infinity true).
  destruct (Prim2SF x) as [s|s| |s m e]; try discriminate; intros _;
    destruct s; reflexivity.
Qed.

Lemma sub_nonpos x y :
  is_finite x = true -> is_finite y = true -> (x <=? y) = true ->
  (x - y <=? 0) = true.
Proof.
  rewrite !is_finite_spec, !leb_spec, sub_spec.
  change (Prim2SF 0) with (S754_zero false).
  apply SFsub_nonpos; apply Prim2SF_valid.
Qed.

Lemma sub_eq_zero x y :
  is_finite x = true -> is_finite y = true -> (x =? y) = true ->
  (x - y =? 0) = true.
Proof.
  rewrite !is_finite_spec, !eqb_spec, sub_spec.
  change (Prim2SF 0) with (S754_zero false).
  apply SFsub_eq_zero.
Qed.

(** [Math.max] of two numbers is one of them and bounds both. *)
Lemma Math_max_spec a b :
  is_nan a = false -> is_nan b = false ->
  (JS.Math_max a b = a \/ JS.Math_max a b = b) /\
  (a <=? JS.Math_max a b) = true /\ (b <=? JS.Math_max a b) = true.
Proof.
  intros Na Nb. unfold JS.Math_max. rewrite Na, Nb. cbn [orb].
  destruct (a <? b) eqn:Hab.
  { repeat split; auto using ltb_leb, leb_refl. }
  destruct (b <? a) eqn:Hba.
  { repeat split; auto using ltb_leb, leb_refl. }
  destruct (not_ltb_leb a b Na Nb Hab Hba) as [H1 H2].
  destruct (get_sign a); repeat split; auto using leb_refl.
Qed.

(** A number equal to zero is one of the two zeros. *)
Lemma eqb_zero_cases x : (x =? 0) = true -> x = 0 \/ x = -0.
Proof.
  rewrite eqb_spec. change (Prim2SF 0) with (S754_zero false).
  intros H.
  destruct (Prim2SF x) as [[]|[]| |[] m e] eqn:E; try discriminate;
    [right|left]; apply Prim2SF_inj; rewrite E; reflexivity.
Qed.

(** A product with a zero factor is a zero when the other factor is finite. *)
Lemma zero_mul_finite z y :
  z = 0 \/ z = -0 -> is_finite y = true -> z * y = 0 \/ z * y = -0.
Proof.
  intros Hz. rewrite is_finite_spec. intros Hy.
  assert (H : exists s, Prim2SF (z * y) = S754_zero s).
  { rewrite mul_spec. destruct Hz as [-> | ->].
    - change (Prim2SF 0) with (S754_zero false).
      destruct (Prim2SF y) as [s|s| |s m e]; try discriminate; eexists; reflexivity.
    - change (Prim2SF (-0)) with (S754_zero true).
      destruct (Prim2SF y) as [s|s| |s m e]; try discriminate; eexists; reflexivity. }
  destruct H as [s H].
  destruct s; [right|left]; apply Prim2SF_inj; rewrite H; reflexivity.
Qed.

(** The sum of two zeros is a zero. *)
Lemma zero_add_zero z1 z2 :
  z1 = 0 \/ z1 = -0 -> z2 = 0 \/ z2 = -0 -> z1 + z2 = 0 \/ z1 + z2 = -0.
Proof.
  intros [-> | ->] [-> | ->]; [left|left|left|right]; reflexivity.
Qed.

End PrimFacts.

(* ================================================================== *)
(** * Magnitude bounds for binary64 arithmetic *)
(* ================================================================== *)

(** How large the result of an operation can be, from the sizes of its
    operands: enough to show that a computation on bounded inputs does
    not overflow.  The bounds follow the rounding function of the
    specification, [binary_round_aux], through its two shifts. *)

Module MagnitudeFacts.
Import FloatSpec FloatFacts PrimFacts Magnitude.
Local Open Scope Z_scope.

(** ** Binary digits *)

Lemma Zdigits2_bounds m : 0 < m -> 2 ^ (Zdigits2 m - 1) <= m < 2 ^ Zdigits2 m.
Proof. destruct m as [|p|p]; try lia. intros _. apply digits2_bounds. Qed.

Lemma Zdigits2_nonneg m : 0 <= Zdigits2 m.
Proof. destruct m; cbn; lia. Qed.

Lemma Zdigits2_pos m : 0 < m -> 0 < Zdigits2 m.
Proof. destruct m; cbn; lia. Qed.

Lemma Zdigits2_le m t : 0 <= m -> 0 <= t -> m < 2 ^ t -> Zdigits2 m <= t.
Proof.
  intros Hm Ht H. destruct (Z.eq_dec m 0) as [->|Hn]; [cbn; lia|].
  pose proof (Zdigits2_bounds m ltac:(lia)) as [Hl _].
  destruct (Z_le_gt_dec (Zdigits2 m) t) as [|Hgt]; [assumption|exfalso].
  assert (2 ^ t <= 2 ^ (Zdigits2 m - 1)) by (apply Z.pow_le_mono_r; lia). lia.
Qed.

Lemma Zdigits2_ge m t : 2 ^ (t - 1) <= m -> 0 < m -> t <= Zdigits2 m.
Proof.
  intros H Hm. pose proof (Zdigits2_bounds m Hm) as [_ Hu].
  destruct (Z_le_gt_dec t (Zdigits2 m)) as [|Hgt]; [assumption|exfalso].
  pose proof (Zdigits2_nonneg m).
  assert (2 ^ (Zdigits2 m) <= 2 ^ (t - 1)) by (apply Z.pow_le_mono_r; lia). lia.
Qed.

Lemma shr_1_div2 mrs : 0 <= shr_m mrs -> shr_m (shr_1 mrs) = shr_m mrs / 2.
Proof.
  destruct mrs as [m r s]. cbn [shr_m shr_1]. intros H.
  destruct m as [|p|p]; [reflexivity| |lia].
  destruct p as [p|p|]; cbn [shr_m].
  - rewrite Pos2Z.inj_xI. apply Z.div_unique with 1; lia.
  - rewrite Pos2Z.inj_xO. apply Z.div_unique with 0; lia.
  - reflexivity.
Qed.

Lemma iter_shr_div p : forall mrs, 0 <= shr_m mrs ->
  shr_m (iter_pos shr_1 p mrs) = shr_m mrs / 2 ^ Zpos p.
Proof.
  induction p as [p IH|p IH|]; intros mrs H; cbn [iter_pos].
  - rewrite IH by (apply iter_pos_nonneg, shr_1_nonneg, H).
    rewrite IH by (apply shr_1_nonneg, H).
    rewrite shr_1_div2 by exact H.
    rewrite !Z.div_div by lia. f_equal.
    replace (Zpos p~1) with (1 + Zpos p + Zpos p) by lia.
    rewrite !Z.pow_add_r by lia. change (2 ^ 1) with 2. lia.
  - rewrite IH by (apply iter_pos_nonneg, H).
    rewrite IH by exact H.
    rewrite !Z.div_div by lia. f_equal.
    replace (Zpos p~0) with (Zpos p + Zpos p) by lia.
    rewrite !Z.pow_add_r by lia. lia.
  - rewrite shr_1_div2 by exact H. reflexivity.
Qed.

Lemma shr_record_of_loc_m m l : shr_m (shr_record_of_loc m l) = m.
Proof. destruct l as [|[]]; reflexivity. Qed.

(** [shr_fexp] divides the mantissa by a power of two and raises the
    exponent by as much. *)
Lemma shr_fexp_spec m e l :
  0 <= m ->
  let e' := Z.max e (fexp prec emax (Zdigits2 m + e)) in
  snd (shr_fexp prec emax m e l) = e' /\
  shr_m (fst (shr_fexp prec emax m e l)) = m / 2 ^ (e' - e).
Proof.
  intros Hm. cbn zeta. unfold shr_fexp, shr.
  destruct (fexp prec emax (Zdigits2 m + e) - e) as [|p|p] eqn:E; cbn [fst snd].
  - rewrite shr_record_of_loc_m. replace (Z.max _ _ - e) with 0 by lia.
    rewrite Z.div_1_r. split; lia.
  - rewrite iter_shr_div by (rewrite shr_record_of_loc_m; exact Hm).
    rewrite shr_record_of_loc_m.
    replace (Z.max e (fexp prec emax (Zdigits2 m + e)) - e) with (Zpos p) by lia.
    split; lia.
  - rewrite shr_record_of_loc_m. replace (Z.max _ _ - e) with 0 by lia.
    rewrite Z.div_1_r. split; lia.
Qed.

Lemma round_nearest_even_range m l : m <= round_nearest_even m l <= m + 1.
Proof.
  unfold round_nearest_even. destruct l as [|[]]; try destruct (Z.even m); lia.
Qed.

Lemma div_pow_lt m n t :
  0 <= m -> 0 <= n -> 0 <= t -> m < 2 ^ t -> m / 2 ^ n < 2 ^ Z.max 0 (t - n).
Proof.
  intros Hm Hn Ht H.
  assert (Hp : 0 < 2 ^ n) by (apply Z.pow_pos_nonneg; lia).
  apply Z.div_lt_upper_bound; [exact Hp|].
  rewrite <- Z.pow_add_r by lia.
  eapply Z.lt_le_trans; [exact H|]. apply Z.pow_le_mono_r; lia.
Qed.

Lemma div_pow_le m n t :
  0 <= m -> 0 <= n -> 0 <= t -> m <= 2 ^ t -> n <= t -> m / 2 ^ n <= 2 ^ (t - n).
Proof.
  intros Hm Hn Ht H Hnt.
  assert (Hp : 0 < 2 ^ n) by (apply Z.pow_pos_nonneg; lia).
  replace (2 ^ (t - n)) with (2 ^ t / 2 ^ n).
  - apply Z.div_le_mono; assumption.
  - replace t with ((t - n) + n) at 1 by lia.
    rewrite Z.pow_add_r by lia. apply Z.div_mul. lia.
Qed.

Lemma div_pow_ge m n t :
  0 <= n -> n <= t -> 2 ^ t <= m -> 2 ^ (t - n) <= m / 2 ^ n.
Proof.
  intros Hn Hnt H.
  assert (Hp : 0 < 2 ^ n) by (apply Z.pow_pos_nonneg; lia).
  apply Z.div_le_lower_bound; [exact Hp|].
  rewrite <- Z.pow_add_r by lia. replace (n + (t - n)) with t by lia. exact H.
Qed.


Lemma Zdigits2_lt_pow m : 0 <= m -> m < 2 ^ Zdigits2 m.
Proof.
  intros H. destruct (Z.eq_dec m 0) as [->|Hn]; [reflexivity|].
  apply Zdigits2_bounds. lia.
Qed.

Ltac unfold_fexp :=
  unfold fexp, emin in *;
  change prec with 53 in *; change emax with 1024 in *.

(** The rounded value of [m * 2^e < 2^k] is below [2^(k+1)], and finite
    while [k <= 1023]. *)
Lemma bra_below s m e l k :
  0 <= m -> Zdigits2 m + e <= k -> e <= 970 -> -1074 <= k <= 1023 ->
  sf_mag_le (k + 1) (binary_round_aux prec emax s m e l).
Proof.
  intros Hm Hk He Hkr. unfold binary_round_aux.
  pose proof (shr_fexp_spec m e l Hm) as H1. cbn zeta in H1.
  destruct (shr_fexp prec emax m e l) as [mrs' e']. cbn [fst snd] in H1.
  destruct H1 as [He' Hm']. rewrite <- He' in Hm'.
  pose proof (Zdigits2_nonneg m) as HD.
  set (D := Zdigits2 m) in *.
  assert (Hn : 0 <= e' - e) by lia.
  assert (Hm'0 : 0 <= shr_m mrs')
    by (rewrite Hm'; apply Z.div_pos; [lia|apply Z.pow_pos_nonneg; lia]).
  assert (Hm'lt : shr_m mrs' < 2 ^ Z.max 0 (D - (e' - e))).
  { rewrite Hm'. apply div_pow_lt; try lia. apply Zdigits2_lt_pow, Hm. }
  set (t := Z.max 0 (D - (e' - e))) in *.
  pose proof (round_nearest_even_range (shr_m mrs') (loc_of_shr_record mrs')) as Hr.
  set (m1 := round_nearest_even (shr_m mrs') (loc_of_shr_record mrs')) in *.
  assert (Hm1 : 0 <= m1) by lia.
  assert (Hm1lt : m1 < 2 ^ (t + 1)).
  { rewrite Z.pow_add_r by lia. change (2 ^ 1) with 2. lia. }
  assert (HD1 : Zdigits2 m1 <= t + 1) by (apply Zdigits2_le; lia).
  pose proof (Zdigits2_nonneg m1) as HD1'.
  pose proof (shr_fexp_spec m1 e' loc_Exact Hm1) as H2. cbn zeta in H2.
  destruct (shr_fexp prec emax m1 e' loc_Exact) as [mrs'' e'']. cbn [fst snd] in H2.
  destruct H2 as [He'' Hm'']. rewrite <- He'' in Hm''.
  assert (Hn2 : 0 <= e'' - e') by lia.
  assert (Hfin : e'' <= 971) by (unfold_fexp; lia).
  assert (Hm''lt : shr_m mrs'' < 2 ^ Z.max 0 (t + 1 - (e'' - e'))).
  { rewrite Hm''. apply div_pow_lt; lia. }
  assert (Hm''0 : 0 <= shr_m mrs'')
    by (rewrite Hm''; apply Z.div_pos; [lia|apply Z.pow_pos_nonneg; lia]).
  destruct (shr_m mrs'') as [|p|p] eqn:Ep.
  - exact I.
  - change (emax - prec) with 971.
    replace (e'' <=? 971) with true by (symmetry; apply Z.leb_le; exact Hfin).
    cbn [sf_mag_le].
    assert (Hd : Zpos (digits2_pos p) <= Z.max 0 (t + 1 - (e'' - e'))).
    { change (Zpos (digits2_pos p)) with (Zdigits2 (Zpos p)).
      apply Zdigits2_le; lia. }
    unfold_fexp. lia.
  - lia.
Qed.

(** Away from underflow the rounded value of [m * 2^e >= 2^(d+e-1)] is an
    infinity or at least that power of two. *)
Lemma bra_above s m e l :
  0 < m -> -1074 <= Zdigits2 m + e - 53 ->
  match binary_round_aux prec emax s m e l with
  | S754_finite _ m' e' => Zdigits2 m + e <= Zpos (digits2_pos m') + e'
  | S754_infinity _ => True
  | _ => False
  end.
Proof.
  intros Hm Hk. unfold binary_round_aux.
  pose proof (shr_fexp_spec m e l ltac:(lia)) as H1. cbn zeta in H1.
  destruct (shr_fexp prec emax m e l) as [mrs' e']. cbn [fst snd] in H1.
  destruct H1 as [He' Hm']. rewrite <- He' in Hm'.
  pose proof (Zdigits2_bounds m Hm) as [HDl HDu].
  pose proof (Zdigits2_pos m Hm) as HD.
  set (D := Zdigits2 m) in *.
  assert (Hn : 0 <= e' - e <= D - 1) by (unfold_fexp; lia).
  assert (Hm'ge : 2 ^ (D - 1 - (e' - e)) <= shr_m mrs').
  { rewrite Hm'. apply div_pow_ge; lia. }
  pose proof (round_nearest_even_range (shr_m mrs') (loc_of_shr_record mrs')) as Hr.
  set (m1 := round_nearest_even (shr_m mrs') (loc_of_shr_record mrs')) in *.
  assert (Hp1 : 0 < 2 ^ (D - 1 - (e' - e))) by (apply Z.pow_pos_nonneg; lia).
  assert (Hm1 : 0 < m1) by lia.
  assert (HD1 : D - (e' - e) <= Zdigits2 m1).
  { apply Zdigits2_ge; [|exact Hm1].
    replace (D - (e' - e) - 1) with (D - 1 - (e' - e)) by lia. lia. }
  pose proof (Zdigits2_bounds m1 Hm1) as [HD1l HD1u].
  pose proof (shr_fexp_spec m1 e' loc_Exact ltac:(lia)) as H2. cbn zeta in H2.
  destruct (shr_fexp prec emax m1 e' loc_Exact) as [mrs'' e'']. cbn [fst snd] in H2.
  destruct H2 as [He'' Hm'']. rewrite <- He'' in Hm''.
  set (D1 := Zdigits2 m1) in *.
  assert (Hn2 : 0 <= e'' - e' <= D1 - 1) by (unfold_fexp; lia).
  assert (Hm''ge : 2 ^ (D1 - 1 - (e'' - e')) <= shr_m mrs'').
  { rewrite Hm''. apply div_pow_ge; lia. }
  assert (Hp2 : 0 < 2 ^ (D1 - 1 - (e'' - e'))) by (apply Z.pow_pos_nonneg; lia).
  destruct (shr_m mrs'') as [|p|p] eqn:Ep; try lia.
  destruct (e'' <=? emax - prec); [|exact I].
  assert (Hd : D1 - (e'' - e') <= Zdigits2 (Zpos p)).
  { apply Zdigits2_ge; [|lia].
    replace (D1 - (e'' - e') - 1) with (D1 - 1 - (e'' - e')) by lia. lia. }
  cbn [Zdigits2] in Hd. lia.
Qed.

(** ** Operations on the specification *)

Lemma valid_digits s m e :
  valid (S754_finite s m e) ->
  Zpos (digits2_pos m) <= 53 /\ -1074 <= e <= 971 /\
  (e = -1074 \/ Zpos (digits2_pos m) = 53).
Proof.
  intros H. pose proof (valid_finite s m e H) as Hf.
  unfold valid in H. cbn [SpecFloat.valid_binary] in H. unfold bounded in H.
  apply andb_prop in H. destruct H as [_ H]. apply Z.leb_le in H.
  change (emax - prec) with 971 in H. lia.
Qed.

Lemma sf_mag_le_mono a b f : sf_mag_le a f -> a <= b -> sf_mag_le b f.
Proof. destruct f; cbn; auto. lia. Qed.

Lemma sf_mag_ge_mono a b f : sf_mag_ge a f -> b <= a -> sf_mag_ge b f.
Proof. destruct f; cbn; auto. lia. Qed.

Lemma sf_mag_le_finite k f : sf_mag_le k f -> sf_is_finite f = true.
Proof. destruct f; cbn; auto; contradiction. Qed.

Lemma pos_lt_pow m : Zpos m < 2 ^ Zpos (digits2_pos m).
Proof. apply digits2_bounds. Qed.

Lemma pos_ge_pow m : 2 ^ (Zpos (digits2_pos m) - 1) <= Zpos m.
Proof. apply digits2_bounds. Qed.

Lemma digits_mul_le mx my :
  Zdigits2 (Zpos (mx * my)) <= Zpos (digits2_pos mx) + Zpos (digits2_pos my).
Proof.
  apply Zdigits2_le; try lia.
  rewrite Z.pow_add_r by lia. rewrite Pos2Z.inj_mul.
  pose proof (pos_lt_pow mx). pose proof (pos_lt_pow my). nia.
Qed.

Lemma digits_mul_ge mx my :
  Zpos (digits2_pos mx) + Zpos (digits2_pos my) - 1 <= Zdigits2 (Zpos (mx * my)).
Proof.
  apply Zdigits2_ge; [|lia].
  replace (Zpos (digits2_pos mx) + Zpos (digits2_pos my) - 1 - 1)
    with ((Zpos (digits2_pos mx) - 1) + (Zpos (digits2_pos my) - 1)) by lia.
  rewrite Z.pow_add_r by lia. rewrite Pos2Z.inj_mul.
  pose proof (pos_ge_pow mx). pose proof (pos_ge_pow my).
  assert (0 < 2 ^ (Zpos (digits2_pos mx) - 1)) by (apply Z.pow_pos_nonneg; lia).
  assert (0 < 2 ^ (Zpos (digits2_pos my) - 1)) by (apply Z.pow_pos_nonneg; lia).
  nia.
Qed.

(** *** Products *)

Lemma SFmul_below a b x y :
  valid x -> valid y -> sf_mag_le a x -> sf_mag_le b y ->
  -1021 <= a -> -1021 <= b -> -1074 <= a + b <= 1023 ->
  sf_mag_le (a + b + 1) (SF64mul x y).
Proof.
  intros Vx Vy Hx Hy Ha Hb Hab. unfold SF64mul, SFmul.
  destruct x as [sx|sx| |sx mx ex], y as [sy|sy| |sy my ey];
    cbn [sf_mag_le] in Hx, Hy; try contradiction; try exact I.
  pose proof (valid_digits _ _ _ Vx). pose proof (valid_digits _ _ _ Vy).
  pose proof (digits_mul_le mx my).
  apply bra_below; lia.
Qed.

Lemma SFmul_above a b x y :
  valid x -> valid y -> sf_mag_ge a x -> sf_mag_ge b y ->
  -1020 <= a + b ->
  match SF64mul x y with
  | S754_finite _ m e => a + b - 1 <= Zpos (digits2_pos m) + e
  | S754_infinity _ => True
  | _ => False
  end.
Proof.
  intros Vx Vy Hx Hy Hab. unfold SF64mul, SFmul.
  destruct x as [sx|sx| |sx mx ex], y as [sy|sy| |sy my ey];
    cbn [sf_mag_ge] in Hx, Hy; try contradiction.
  pose proof (digits_mul_ge mx my).
  pose proof (bra_above (xorb sx sy) (Zpos (mx * my)) (ex + ey) loc_Exact
                ltac:(lia) ltac:(lia)) as H1.
  destruct (binary_round_aux _ _ _ _ _ _); auto. lia.
Qed.

(** *** Sums and differences *)

Lemma shl_align_snd m e e' : e' <= e -> snd (shl_align m e e') = e'.
Proof.
  intros H. unfold shl_align.
  destruct (e' - e) as [|d|d] eqn:E; cbn [snd]; lia.
Qed.

Lemma shl_align_id m e e' : e <= e' -> shl_align m e e' = (m, e).
Proof.
  intros H. unfold shl_align. destruct (e' - e) as [|d|d] eqn:E; try reflexivity. lia.
Qed.

Lemma binary_round_below s p e k :
  Zpos (digits2_pos p) + e <= k -> -1074 <= k <= 1023 ->
  sf_mag_le (k + 1) (binary_round prec emax s p e).
Proof.
  intros Hk Hkr. unfold binary_round.
  set (fe := fexp prec emax (Zpos (digits2_pos p) + e)).
  assert (Hfe : fe <= 970 /\ Zpos (digits2_pos p) + e - 53 <= fe)
    by (unfold fe; unfold_fexp; lia).
  destruct (Z_le_gt_dec fe e) as [Hle|Hgt].
  - pose proof (shl_align_fst p e fe Hle) as Hf.
    pose proof (shl_align_snd p e fe Hle) as Hs.
    destruct (shl_align p e fe) as [mz ez]. cbn [fst snd] in Hf, Hs. subst ez.
    apply bra_below; try lia.
    assert (Zdigits2 (Zpos mz) <= Zpos (digits2_pos p) + (e - fe)).
    { apply Zdigits2_le; try lia. rewrite Hf, Z.pow_add_r by lia.
      pose proof (pos_lt_pow p).
      assert (0 < 2 ^ (e - fe)) by (apply Z.pow_pos_nonneg; lia). nia. }
    lia.
  - rewrite shl_align_id by lia. apply bra_below; cbn [Zdigits2]; lia.
Qed.

Lemma binary_normalize_below d e k :
  Zdigits2 d + e <= k -> -1074 <= k <= 1023 ->
  sf_mag_le (k + 1) (binary_normalize prec emax d e false).
Proof.
  intros Hk Hkr. destruct d as [|p|p]; cbn [binary_normalize]; [exact I| |];
    apply binary_round_below; assumption.
Qed.

Lemma Zdigits2_abs_le z t : 0 <= t -> - 2 ^ t < z < 2 ^ t -> Zdigits2 z <= t.
Proof.
  intros Ht H. destruct z as [|p|p].
  - cbn. lia.
  - apply Zdigits2_le; lia.
  - change (Zdigits2 (Zneg p)) with (Zdigits2 (Zpos p)). apply Zdigits2_le; lia.
Qed.

Lemma aligned_term s m e ez k :
  Zpos (digits2_pos m) + e <= k -> ez <= e ->
  0 <= k - ez /\
  - 2 ^ (k - ez) < cond_Zopp s (Zpos (fst (shl_align m e ez))) < 2 ^ (k - ez).
Proof.
  intros Hk Hez. rewrite (shl_align_fst m e ez Hez).
  pose proof (pos_lt_pow m) as B.
  assert (P : 0 < 2 ^ (e - ez)) by (apply Z.pow_pos_nonneg; lia).
  assert (T : Zpos m * 2 ^ (e - ez) < 2 ^ (k - ez)).
  { eapply Z.lt_le_trans with (2 ^ (Zpos (digits2_pos m) + (e - ez))).
    - rewrite Z.pow_add_r by lia. nia.
    - apply Z.pow_le_mono_r; lia. }
  split; [lia|]. destruct s; cbn [cond_Zopp]; lia.
Qed.

Lemma SFadd_below k x y :
  sf_mag_le k x -> sf_mag_le k y -> -1075 <= k <= 1022 ->
  sf_mag_le (k + 2) (SF64add x y).
Proof.
  intros Hx Hy Hk. unfold SF64add, SFadd.
  destruct x as [sx|sx| |sx mx ex], y as [sy|sy| |sy my ey];
    cbn [sf_mag_le] in Hx, Hy; try contradiction.
  - destruct sx, sy; exact I.
  - cbn [sf_mag_le]. lia.
  - cbn [sf_mag_le]. lia.
  - cbn zeta. set (ez := Z.min ex ey).
    destruct (aligned_term sx mx ex ez k Hx ltac:(unfold ez; lia)) as [Hk0 Tx].
    destruct (aligned_term sy my ey ez k Hy ltac:(unfold ez; lia)) as [_ Ty].
    replace (k + 2) with (k + 1 + 1) by lia.
    apply binary_normalize_below; [|lia].
    match goal with |- Zdigits2 ?z + _ <= _ =>
      assert (Zdigits2 z <= k - ez + 1) end; [|lia].
    apply Zdigits2_abs_le; [lia|].
    rewrite Z.pow_add_r by lia. change (2 ^ 1) with 2. lia.
Qed.

Lemma SFsub_below k x y :
  sf_mag_le k x -> sf_mag_le k y -> -1075 <= k <= 1022 ->
  sf_mag_le (k + 2) (SF64sub x y).
Proof.
  intros Hx Hy Hk. unfold SF64sub, SFsub.
  destruct x as [sx|sx| |sx mx ex], y as [sy|sy| |sy my ey];
    cbn [sf_mag_le] in Hx, Hy; try contradiction.
  - destruct sx, sy; exact I.
  - cbn [sf_mag_le]. lia.
  - cbn [sf_mag_le]. lia.
  - cbn zeta. set (ez := Z.min ex ey).
    destruct (aligned_term sx mx ex ez k Hx ltac:(unfold ez; lia)) as [Hk0 Tx].
    destruct (aligned_term sy my ey ez k Hy ltac:(unfold ez; lia)) as [_ Ty].
    replace (k + 2) with (k + 1 + 1) by lia.
    apply binary_normalize_below; [|lia].
    match goal with |- Zdigits2 ?z + _ <= _ =>
      assert (Zdigits2 z <= k - ez + 1) end; [|lia].
    apply Zdigits2_abs_le; [lia|].
    rewrite Z.pow_add_r by lia. change (2 ^ 1) with 2. lia.
Qed.

(** *** Quotients *)

Lemma SFdiv_below a b x y :
  sf_mag_le a x -> sf_mag_ge b y -> -1075 <= a - b <= 1022 ->
  sf_mag_le (a - b + 2) (SF64div x y).
Proof.
  intros Hx Hy Hab. unfold SF64div, SFdiv.
  destruct x as [sx|sx| |sx mx ex], y as [sy|sy| |sy my ey];
    cbn [sf_mag_le sf_mag_ge] in Hx, Hy; try contradiction; try exact I.
  unfold SFdiv_core_binary. cbn [Zdigits2].
  set (dx := Zpos (digits2_pos mx)) in *. set (dy := Zpos (digits2_pos my)) in *.
  set (e' := Z.min (fexp prec emax (dx + ex - (dy + ey))) (ex - ey)).
  set (s := ex - ey - e').
  assert (Hs : 0 <= s) by (unfold s, e'; lia).
  set (m' := match s with Z.pos _ => Z.shiftl (Z.pos mx) s | 0 => Z.pos mx | Z.neg _ => 0 end).
  assert (Hm' : m' = Zpos mx * 2 ^ s).
  { unfold m'. destruct s as [|p|p] eqn:Es; try lia.
    now rewrite Z.shiftl_mul_pow2 by lia. }
  assert (Ps : 0 < 2 ^ s) by (apply Z.pow_pos_nonneg; lia).
  pose proof (pos_lt_pow mx) as Bx. pose proof (pos_ge_pow my) as By.
  fold dx in Bx. fold dy in By.
  assert (Pdy : 0 < 2 ^ (dy - 1)) by (apply Z.pow_pos_nonneg; unfold dy; lia).
  pose proof (Z.div_eucl_eq m' (Zpos my) ltac:(lia)) as Hq.
  pose proof (Z.mod_pos_bound m' (Zpos my) ltac:(lia)) as Hr.
  unfold Z.modulo in Hr.
  destruct (Z.div_eucl m' (Z.pos my)) as [q r].
  assert (Hq0 : 0 <= q) by nia.
  set (T := Z.max 0 (dx + s - dy + 1)).
  assert (HqT : q < 2 ^ T).
  { assert (Hlt : m' < 2 ^ (dy - 1) * 2 ^ T).
    { rewrite <- Z.pow_add_r by (unfold dy, T; lia).
      rewrite Hm'.
      apply Z.lt_le_trans with (2 ^ (dx + s)).
      - rewrite Z.pow_add_r by (unfold dx; lia). nia.
      - apply Z.pow_le_mono_r; unfold T; lia. }
    assert (0 < 2 ^ T) by (apply Z.pow_pos_nonneg; unfold T; lia).
    nia. }
  assert (HD : Zdigits2 q <= T)
    by (apply Zdigits2_le; [exact Hq0 | unfold T; lia | exact HqT]).
  replace (a - b + 2) with (a - b + 1 + 1) by lia.
  apply bra_below; try lia.
  - unfold T, s, e' in *. unfold_fexp. lia.
  - unfold e'. unfold_fexp. lia.
Qed.

(** ** Operations on numbers *)

Lemma below_mono a b x : below a x -> a <= b -> below b x.
Proof. apply sf_mag_le_mono. Qed.

Lemma below_finite k x : below k x -> is_finite x = true.
Proof. rewrite is_finite_spec. apply sf_mag_le_finite. Qed.

Lemma const_below c s m e k :
  Prim2SF c = S754_finite s m e -> Zpos (digits2_pos m) + e <= k -> below k c.
Proof. unfold below. intros -> H. exact H. Qed.

Lemma const_above c s m e k :
  Prim2SF c = S754_finite s m e -> k <= Zpos (digits2_pos m) + e -> above k c.
Proof. unfold above. intros -> H. exact H. Qed.

Lemma mul_below a b x y :
  below a x -> below b y ->
  -1021 <= a -> -1021 <= b -> -1074 <= a + b <= 1023 ->
  below (a + b + 1) (x * y)%float.
Proof.
  unfold below. rewrite mul_spec. apply SFmul_below; apply Prim2SF_valid.
Qed.

Lemma mul_above a b k x y :
  above a x -> above b y -> below k (x * y)%float -> -1020 <= a + b ->
  above (a + b - 1) (x * y)%float.
Proof.
  unfold above, below. rewrite mul_spec. intros Hx Hy Hk Hab.
  pose proof (SFmul_above a b _ _ (Prim2SF_valid x) (Prim2SF_valid y) Hx Hy Hab) as H.
  destruct (SF64mul (Prim2SF x) (Prim2SF y)); cbn [sf_mag_le sf_mag_ge] in *;
    auto.
Qed.

Lemma add_below k x y :
  below k x -> below k y -> -1075 <= k <= 1022 -> below (k + 2) (x + y)%float.
Proof. unfold below. rewrite add_spec. apply SFadd_below. Qed.

Lemma sub_below k x y :
  below k x -> below k y -> -1075 <= k <= 1022 -> below (k + 2) (x - y)%float.
Proof. unfold below. rewrite sub_spec. apply SFsub_below. Qed.

Lemma div_below a b x y :
  below a x -> above b y -> -1075 <= a - b <= 1022 ->
  below (a - b + 2) (x / y)%float.
Proof. unfold below, above. rewrite div_spec. apply SFdiv_below. Qed.

(** [|x| <= c] for a positive finite [c = m * 2^e]. *)
Lemma abs_leb_below x c m e :
  Prim2SF c = S754_finite false m e ->
  (abs x <=? c)%float = true -> below (e + 53) x.
Proof.
  intros Hc. rewrite leb_spec, abs_spec, Hc. unfold below.
  pose proof (Prim2SF_valid x) as V.
  destruct (Prim2SF x) as [s|s| |s mx ex]; try discriminate; [intros _; exact I|].
  intros H. apply SFleb_key in H; try reflexivity.
  cbn [SFabs sf_key key_le] in H.
  pose proof (valid_digits _ _ _ V). cbn [sf_mag_le]. lia.
Qed.

(** [c1 <= x <= c2] for positive finite [c1] (normal) and [c2]. *)
Lemma leb_range x c1 m1 e1 c2 m2 e2 :
  Prim2SF c1 = S754_finite false m1 e1 -> -1074 < e1 ->
  Prim2SF c2 = S754_finite false m2 e2 ->
  (c1 <=? x)%float = true -> (x <=? c2)%float = true ->
  above (e1 + 53) x /\ below (e2 + 53) x.
Proof.
  intros Hc1 He1 Hc2. rewrite !leb_spec, Hc1, Hc2. unfold above, below.
  pose proof (Prim2SF_valid x) as V.
  intros H1 H2. destruct (SFleb_not_nan _ _ H2) as [Nx _].
  apply SFleb_key in H1; try reflexivity; try exact Nx.
  apply SFleb_key in H2; try reflexivity; try exact Nx.
  destruct (Prim2SF x) as [s|s| |s mx ex]; try discriminate Nx;
    try (destruct s; cbn [sf_key key_le] in H1, H2; lia).
  pose proof (valid_digits _ _ _ V).
  destruct s; cbn [sf_key key_le] in H1, H2; cbn [sf_mag_le sf_mag_ge]; lia.
Qed.

End MagnitudeFacts.

(* ================================================================== *)
(** * The reference functions meet the contract assumed of [Math.exp] *)
(* ================================================================== *)

Module RefMathFacts.
Import PrimFacts.
Local Open Scope float_scope.

Lemma exp_zero x : (x =? 0) = true -> RefMath.exp x = 1.
Proof. intros H. destruct (eqb_zero_cases x H) as [-> | ->]; reflexivity. Qed.

Lemma clamp01_unit y :
  (0 <=? RefMath.clamp01 y) = true /\ (RefMath.clamp01 y <=? 1) = true.
Proof.
  unfold RefMath.clamp01.
  destruct (y <=? 1) eqn:H1; [destruct (0 <=? y) eqn:H0|]; auto.
Qed.

Lemma exp_unit x :
  (x <=? 0) = true ->
  (0 <=? RefMath.exp x) = true /\ (RefMath.exp x <=? 1) = true.
Proof.
  intros H. unfold RefMath.exp.
  destruct (leb_not_nan _ _ H) as [-> _].
  destruct (x =? 0); [auto|]. rewrite H.
  destruct (x <? -745.1332191019412); [auto|]. apply clamp01_unit.
Qed.

End RefMathFacts.

(* ================================================================== *)
(** * The generator and the model on concrete inputs *)
(* ================================================================== *)

Module ModelChecks.
Import JS MCMC SamplerSpec.
Local Open Scope float_scope.

(** The state of the generator is a signed 32-bit integer after the first
    call, and the product and sum inside [lcg_next] stay below [2^53] in
    magnitude on such a state: the binary64 arithmetic of the source is
    exact there. *)
Lemma lcg_next_range s : (- 2 ^ 31 <= lcg_next s < 2 ^ 31)%Z.
Proof.
  unfold lcg_next, and_ffffffff, ToInt32.
  match goal with |- (_ <= ?a mod ?b - _ < _)%Z =>
    pose proof (Z.mod_pos_bound a b ltac:(lia)) end.
  lia.
Qed.

Lemma lcg_exact s :
  (- 2 ^ 31 <= s < 2 ^ 31)%Z ->
  (- 2 ^ 53 < s * 1664525 + 1013904223 < 2 ^ 53)%Z.
Proof. lia. Qed.

Lemma lcg_exact_witness :
  (- 2 ^ 53 < lcg_next 42 * 1664525 + 1013904223 < 2 ^ 53)%Z.
Proof. apply (lcg_exact (lcg_next 42)), lcg_next_range. Defined.

Lemma ushr0_range s : (0 <= ushr0 s < 2 ^ 32)%Z.
Proof. unfold ushr0, ToUint32. apply Z.mod_pos_bound. lia. Qed.

(** The first draws from seed 42, the seed of the data set and the default
    seed of the sampler. *)
Example lcg_first_draw :
  lcg_draw 42%Z = (0.2523451747838408, 1083814273%Z).
Proof. reflexivity. Qed.

Example lcg_third_state :
  lcg_next (lcg_next (lcg_next 42%Z)) = (-1815563429)%Z.
Proof. reflexivity. Qed.

(** The reference logarithm and exponential against correctly rounded
    values. *)
Example reference_log_values :
  RefMath.log 6.5 = 1.8718021769015913 /\
  RefMath.log 7.5 = 2.0149030205422647 /\
  RefMath.log 1 = 0 /\
  RefMath.log 0 = neg_infinity.
Proof. vm_compute. repeat split. Qed.

Example reference_exp_values :
  RefMath.exp 5.5 = 244.69193226422038 /\
  RefMath.exp (-1) = 0.36787944117144233 /\
  RefMath.exp (-0) = 1 /\
  RefMath.exp neg_infinity = 0.
Proof. vm_compute. repeat split. Qed.

(** The first step of the default run is a rejection after both
    evaluations of the log posterior; a proposal below zero is rejected
    without any. *)
Example first_step_of_default_run :
  mhStep (M := reference_Math) 1.0 0.6 0.15 (seededRNG 42%Z) =
    (1, 0.6, false, {| rng_state := (-1815563429)%Z; target_evals := 2 |}).
Proof. vm_compute. reflexivity. Qed.

Example step_near_the_boundary :
  mhStep (M := reference_Math) 1.0 0.05 0.3 (seededRNG 1%Z) =
    (1, 0.05, false, {| rng_state := 1586005467%Z; target_evals := 0 |}).
Proof. vm_compute. reflexivity. Qed.

(** The log posterior at the sampler's starting state is finite, and the
    prior term alone decides the infeasible region. *)
Example TARGET_LOG_PROB_at_start :
  TARGET_LOG_PROB (M := reference_Math) 1.0 0.6 = -2.9181188901422606 /\
  TARGET_LOG_PROB (M := reference_Math) 1.0 0 = neg_infinity /\
  TARGET_LOG_PROB (M := reference_Math) 1.0 (-0.3) = neg_infinity.
Proof. vm_compute. repeat split. Qed.

End ModelChecks.

(* ================================================================== *)
(** * The sampler *)
(* ================================================================== *)

Module SamplerFacts.
Import JS MCMC SamplerSpec PrimFacts.
Local Open Scope float_scope.

Section WithMath.
Context {M : Math}.

Lemma chain_length step k : forall mu sig e, length (chain step k mu sig e) = k.
Proof.
  induction k as [|k IH]; intros mu sig e; simpl; [reflexivity|].
  destruct (mhStep mu sig step e) as [[[nm ns] acc] e'].
  simpl. now rewrite IH.
Qed.

(** The loop of [runSampler], started at index [a] from any loop state. *)
Lemma loop_from step n : forall a l,
  let c := chain step n (mu l) (sig l) (env l) in
  let l' := fold_left (loop_body step) (seq a n) l in
  newSamples l' = newSamples l ++ map point_of (skipn (burnIn - a) c) /\
  trajectory l' =
    trajectory l ++ map point_of (skipn (burnIn - a) (firstn (burnIn + 80 - a) c)) /\
  accepted l' = (accepted l + Z.of_nat (length (filter was_accepted c)))%Z.
Proof.
  induction n as [|n IH]; intros a l; cbn zeta.
  - cbn [seq fold_left chain]. rewrite firstn_nil, !skipn_nil.
    cbn [map filter length]. rewrite !app_nil_r. repeat split. lia.
  - cbn [seq fold_left chain].
    specialize (IH (S a) (loop_body step l a)).
    cbn zeta in IH. revert IH. unfold loop_body.
    destruct (mhStep (mu l) (sig l) step (env l)) as [[[nm ns] acc] e'].
    cbn [mu sig env newSamples trajectory accepted].
    intros (IHs & IHt & IHa). rewrite IHs, IHt, IHa. clear IHs IHt IHa.
    unfold burnIn. split; [|split].
    + destruct (Nat.leb_spec 100 a) as [Hge|Hlt].
      * replace (100 - a)%nat with 0%nat by lia.
        replace (100 - S a)%nat with 0%nat by lia.
        cbn [skipn map]. now rewrite <- app_assoc.
      * replace (100 - a)%nat with (S (100 - S a)) by lia. reflexivity.
    + destruct (Nat.leb_spec 100 a) as [Hge|Hlt]; cbn [andb].
      * replace (100 - a)%nat with 0%nat by lia.
        replace (100 - S a)%nat with 0%nat by lia.
        destruct (Nat.ltb_spec a (100 + 80)) as [Hlt|Hge'].
        -- replace (100 + 80 - a)%nat with (S (100 + 80 - S a)) by lia.
           cbn [firstn skipn map]. now rewrite <- app_assoc.
        -- replace (100 + 80 - a)%nat with 0%nat by lia.
           replace (100 + 80 - S a)%nat with 0%nat by lia.
           rewrite !firstn_O. reflexivity.
      * replace (100 - a)%nat with (S (100 - S a)) by lia.
        replace (100 + 80 - a)%nat with (S (100 + 80 - S a)) by lia.
        reflexivity.
    + cbn [filter was_accepted snd]. destruct acc; cbn [length]; lia.
Qed.

(** What one run leaves in the component, in terms of the chain. *)
Lemma runSampler_spec c :
  samples (runSampler c) = map point_of (skipn burnIn (run_chain c)) /\
  path (runSampler c) =
    start :: map point_of (firstn 80 (skipn burnIn (run_chain c))) /\
  acceptance (runSampler c) =
    Some (of_int (Z.of_nat (length (filter was_accepted (run_chain c))))
          / of_int (numSamples c + Z.of_nat burnIn)).
Proof.
  unfold runSampler, run_loop. cbn [samples path acceptance].
  pose proof (loop_from (stepSize c) (Z.to_nat (numSamples c + Z.of_nat burnIn))
                0 (loop_init (seed c))) as H.
  cbn zeta in H. destruct H as (Hs & Ht & Ha).
  rewrite Hs, Ht, Ha. unfold loop_init, run_chain.
  cbn [newSamples trajectory accepted mu sig env].
  rewrite !Nat.sub_0_r. rewrite firstn_skipn_comm.
  repeat split.
Qed.


(** ** Positivity of sigma *)

Lemma TARGET_nan_sig mu sig :
  is_nan sig = true -> is_nan (TARGET_LOG_PROB mu sig) = true.
Proof.
  intros H. unfold TARGET_LOG_PROB.
  rewrite (leb_nan_l _ _ H).
  apply is_nan_add_r. unfold logPriorSig. now apply is_nan_mul_r.
Qed.

(** The two ways out of [mhStep]: stay, or move to a proposal that passed
    both tests. *)
Lemma mhStep_cases mu sig step e :
  let '(nm, ns, acc, e') := mhStep mu sig step e in
  (nm = mu /\ ns = sig /\ acc = false) \/
  (acc = true /\ (ns <=? 0) = false /\
   exists l lc, (l <? TARGET_LOG_PROB nm ns - lc) = true).
Proof.
  unfold mhStep, bind, rng, eval_target, ret, lcg_draw. cbn.
  match goal with |- context [if ?c then _ else _] => destruct c eqn:Hle end.
  - left. auto.
  - match goal with |- context [if ?c then _ else _] => destruct c eqn:Hlt end.
    + right. repeat split; auto. eauto.
    + left. auto.
Qed.

Lemma mhStep_sig_pos mu sig step e :
  (0 <? sig) = true ->
  let '(_, ns, _, _) := mhStep mu sig step e in (0 <? ns) = true.
Proof.
  intros Hpos. pose proof (mhStep_cases mu sig step e) as H.
  destruct (mhStep mu sig step e) as [[[nm ns] acc] e'].
  destruct H as [(_ & -> & _)|(_ & Hle & l & lc & Hlt)]; [assumption|].
  destruct (not_leb_0 _ Hle) as [Hnan|]; [|assumption].
  rewrite ltb_nan_r in Hlt; [discriminate|].
  apply is_nan_sub_l. now apply TARGET_nan_sig.
Qed.

Lemma chain_sigma_positive step k : forall mu sig e,
  (0 <? sig) = true ->
  Forall sigma_positive (map point_of (chain step k mu sig e)).
Proof.
  induction k as [|k IH]; intros mu sig e Hpos; cbn [chain map]; [constructor|].
  pose proof (mhStep_sig_pos mu sig step e Hpos) as H.
  destruct (mhStep mu sig step e) as [[[nm ns] acc] e'].
  cbn [map]. constructor; [exact H|]. now apply IH.
Qed.

(** A proposal with [sigProp <= 0] is rejected after two draws, before any
    call of [TARGET_LOG_PROB]. *)
Lemma mhStep_infeasible mu sig step e :
  let u2 := lcg_uniform (lcg_next (lcg_next (rng_state e))) in
  (sig + (u2 * 2 - 1) * step <=? 0) = true ->
  mhStep mu sig step e =
    (mu, sig, false,
     {| rng_state := lcg_next (lcg_next (rng_state e));
        target_evals := target_evals e |}).
Proof.
  cbn zeta. intros H.
  unfold mhStep, bind, rng, eval_target, ret, lcg_draw.
  cbn [rng_state target_evals]. now rewrite H.
Qed.

Lemma Forall_skipn_of {A} (P : A -> Prop) n (l : list A) :
  Forall P l -> Forall P (skipn n l).
Proof.
  intros H. rewrite <- (firstn_skipn n l) in H.
  now apply Forall_app in H.
Qed.

Lemma Forall_firstn_of {A} (P : A -> Prop) n (l : list A) :
  Forall P l -> Forall P (firstn n l).
Proof.
  intros H. rewrite <- (firstn_skipn n l) in H.
  now apply Forall_app in H.
Qed.

(** ** The claims about [runSampler] *)

(** C1. Determinism of the sampler: two runs of [runSampler] from component
    states that agree on the seed, the step size and the sample count (and
    may differ in everything else: stale samples, path, acceptance rate or
    running flag of an earlier run) leave identical sample sequences,
    identical trajectories and identical acceptance rates.  Each run
    builds a fresh generator from the seed and starts at (1.0, 0.6). *)
Theorem runSampler_deterministic (c1 c2 : Component) :
  seed c1 = seed c2 ->
  stepSize c1 = stepSize c2 ->
  numSamples c1 = numSamples c2 ->
  samples (runSampler c1) = samples (runSampler c2) /\
  path (runSampler c1) = path (runSampler c2) /\
  acceptance (runSampler c1) = acceptance (runSampler c2).
Proof.
  intros Hseed Hstep Hn. unfold runSampler.
  cbn [samples path acceptance].
  rewrite Hseed, Hstep, Hn. repeat split.
Qed.

(** C2. Every state recorded in the sample set and in the trajectory has
    [sigma > 0], for every seed, step size and sample count; and a proposal
    with [sigProp <= 0] makes [mhStep] return the current state unchanged
    with [accepted = false], having drawn two numbers and evaluated
    [TARGET_LOG_PROB] not at all (the evaluation counter is unchanged). *)
Theorem sigma_stays_positive (c : Component) :
  Forall sigma_positive (samples (runSampler c)) /\
  Forall sigma_positive (path (runSampler c)) /\
  (forall mu sig step e,
     let u2 := lcg_uniform (lcg_next (lcg_next (rng_state e))) in
     (sig + (u2 * 2 - 1) * step <=? 0) = true ->
     mhStep mu sig step e =
       (mu, sig, false,
        {| rng_state := lcg_next (lcg_next (rng_state e));
           target_evals := target_evals e |})).
Proof.
  destruct (runSampler_spec c) as (Hs & Hp & _).
  assert (Hc : Forall sigma_positive (map point_of (run_chain c)))
    by (apply chain_sigma_positive; reflexivity).
  rewrite Hs, Hp. split; [|split].
  - rewrite <- skipn_map. now apply Forall_skipn_of.
  - constructor; [reflexivity|].
    rewrite <- firstn_map, <- skipn_map.
    now apply Forall_firstn_of, Forall_skipn_of.
  - intros mu sig step e. apply mhStep_infeasible.
Qed.

(** C7. The reported acceptance rate is the number of accepted steps of the
    whole chain, burn-in included, divided by [numSamples + 100]; the
    chain it counts over has [numSamples + 100] steps. *)
Theorem acceptance_over_whole_run (c : Component) :
  acceptance (runSampler c) =
    Some (of_int (Z.of_nat (length (filter was_accepted (run_chain c))))
          / of_int (numSamples c + 100)) /\
  length (run_chain c) = Z.to_nat (numSamples c + 100).
Proof.
  split; [apply runSampler_spec|apply chain_length].
Qed.

(** C9, as amended. The retained trajectory is the starting state
    (1.0, 0.6), recorded before the first step, followed by the chain
    states after the first 80 post-burn-in steps (all of them when there
    are fewer); no state reached during the 100 burn-in steps is
    recorded. *)
Theorem trajectory_is_start_then_post_burn_in (c : Component) :
  path (runSampler c) =
    start :: map point_of (firstn 80 (skipn burnIn (run_chain c))).
Proof. apply runSampler_spec. Qed.

(** The trajectory always contains the starting state. *)
Lemma start_in_path (c : Component) : In start (path (runSampler c)).
Proof.
  destruct (runSampler_spec c) as (_ & Hp & _). rewrite Hp. now left.
Qed.

(** With no samples requested the run is burn-in only, and the trajectory
    is the starting state alone, whatever the engine. *)
Lemma path_without_samples (c : Component) :
  numSamples c = 0%Z ->
  samples (runSampler c) = [] /\ path (runSampler c) = [start].
Proof.
  intros Hn. destruct (runSampler_spec c) as (Hs & Hp & _).
  assert (E : skipn burnIn (run_chain c) = []).
  { apply skipn_all2. unfold run_chain. rewrite chain_length, Hn. reflexivity. }
  rewrite Hs, Hp, E. split; reflexivity.
Qed.

(** C10. For a sample count [n >= 0], one run retains exactly [n] sample
    positions and a trajectory of exactly [1 + min n 80] points. *)
Theorem sample_and_trajectory_sizes (c : Component) :
  (0 <= numSamples c)%Z ->
  Z.of_nat (length (samples (runSampler c))) = numSamples c /\
  Z.of_nat (length (path (runSampler c))) = (1 + Z.min (numSamples c) 80)%Z.
Proof.
  intros Hn. destruct (runSampler_spec c) as (Hs & Hp & _).
  rewrite Hs, Hp. cbn [length].
  rewrite !length_map, length_firstn, length_skipn.
  unfold run_chain. rewrite chain_length. unfold burnIn. lia.
Qed.

End WithMath.

Lemma runSampler_deterministic_witness :
  samples (runSampler (M := reference_Math) initial)
    = samples (runSampler (M := reference_Math) stale) /\
  path (runSampler (M := reference_Math) initial)
    = path (runSampler (M := reference_Math) stale) /\
  acceptance (runSampler (M := reference_Math) initial)
    = acceptance (runSampler (M := reference_Math) stale).
Proof.
  apply (runSampler_deterministic (M := reference_Math) initial stale);
    reflexivity.
Defined.

Lemma sample_and_trajectory_sizes_witness :
  Z.of_nat (length (samples (runSampler (M := reference_Math) initial))) = 300%Z /\
  Z.of_nat (length (path (runSampler (M := reference_Math) initial))) = 81%Z.
Proof.
  apply (sample_and_trajectory_sizes (M := reference_Math) initial).
  cbn [numSamples initial]. lia.
Defined.

(** Membership of a point in a list of points, refuted by comparing bits. *)
Lemma not_In_by_eqb p l :
  forallb (fun q => negb (point_eqb p q)) l = true -> ~ In p l.
Proof.
  intros H Hin. rewrite forallb_forall in H. specialize (H p Hin).
  unfold point_eqb in H.
  assert (E : forall f, Leibniz.eqb f f = true) by (intros f; now apply Leibniz.eqb_spec).
  rewrite !E in H. discriminate.
Qed.

(** C9 fails as stated: with seed 42, step size 0.15 and 50 samples the
    trajectory contains the starting state (1.0, 0.6), which is none of
    the states reached in the post-burn-in steps. *)
Lemma trajectory_keeps_starting_state :
  exists p,
    In p (path (runSampler (M := reference_Math) fifty)) /\
    ~ In p (map point_of
              (firstn 80 (skipn burnIn (run_chain (M := reference_Math) fifty)))).
Proof.
  exists start. split.
  - apply (start_in_path (M := reference_Math)).
  - apply not_In_by_eqb. vm_compute. reflexivity.
Qed.

End SamplerFacts.

(* ================================================================== *)
(** * The heat-map grid *)
(* ================================================================== *)

Module GridFacts.
Import JS MCMC SamplerSpec PrimFacts.
Local Open Scope float_scope.

Section WithMath.
Context {M : Math}.

Lemma fill_cell_fold target i : forall js row m,
  fold_left (fill_cell target i) js (row, m) =
  (row ++ map (fun j => target (grid_mu i) (grid_sig j)) js,
   fold_left track_max (map (fun j => target (grid_mu i) (grid_sig j)) js) m).
Proof.
  induction js as [|j js IH]; intros row m; cbn [fold_left map].
  - now rewrite app_nil_r.
  - unfold fill_cell at 2. rewrite IH, <- app_assoc. reflexivity.
Qed.

(** The outer loop, over any lists of row and column indices. *)
Lemma fill_rows_over target (cols : list nat) : forall rows grid m,
  fold_left
    (fun (acc : list (list float) * float) (i : nat) =>
       let (grid, maxV) := acc in
       let (row, maxV') := fold_left (fill_cell target i) cols ([], maxV) in
       (grid ++ [row], maxV'))
    rows (grid, m) =
  (grid ++ map (fun i => map (fun j => target (grid_mu i) (grid_sig j)) cols) rows,
   fold_left track_max
     (concat (map (fun i => map (fun j => target (grid_mu i) (grid_sig j)) cols) rows)) m).
Proof.
  induction rows as [|i rows IH]; intros grid m; cbn [fold_left map concat].
  - now rewrite app_nil_r.
  - rewrite fill_cell_fold. cbn [app].
    rewrite IH, <- app_assoc, fold_left_app. reflexivity.
Qed.

Lemma fill_row_fold target : forall rows grid m,
  fold_left (fill_row target) rows (grid, m) =
  (grid ++ map (grid_row target) rows,
   fold_left track_max (concat (map (grid_row target) rows)) m).
Proof.
  intros rows grid m. exact (fill_rows_over target (seq 0 GRID_STEPS) rows grid m).
Qed.

Lemma buildContourGridWith_eq target :
  buildContourGridWith target =
  map (map (shade (grid_max target))) (grid_values target).
Proof.
  unfold buildContourGridWith, grid_max, grid_values.
  rewrite fill_row_fold. cbn [app]. reflexivity.
Qed.

Lemma nth_map_seq {A} (f : nat -> A) n i d :
  (i < n)%nat -> nth i (map f (seq 0 n)) d = f i.
Proof.
  intros H. rewrite (nth_indep _ d (f 0%nat)) by now rewrite length_map, length_seq.
  rewrite map_nth, seq_nth by assumption. reflexivity.
Qed.

Lemma cell_eq target i j :
  (i < GRID_STEPS)%nat -> (j < GRID_STEPS)%nat ->
  nth j (nth i (buildContourGridWith target) []) 0 =
  shade (grid_max target) (target (grid_mu i) (grid_sig j)).
Proof.
  intros Hi Hj. rewrite buildContourGridWith_eq.
  unfold grid_values, grid_row. rewrite map_map.
  rewrite nth_map_seq by assumption. rewrite map_map.
  now rewrite nth_map_seq by assumption.
Qed.

Lemma In_grid_values target v :
  In v (concat (grid_values target)) <->
  exists i j, (i < GRID_STEPS)%nat /\ (j < GRID_STEPS)%nat /\
              v = target (grid_mu i) (grid_sig j).
Proof.
  unfold grid_values, grid_row. rewrite in_concat. split.
  - intros (row & Hrow & Hv).
    apply in_map_iff in Hrow. destruct Hrow as (i & <- & Hi).
    apply in_map_iff in Hv. destruct Hv as (j & <- & Hj).
    apply in_seq in Hi, Hj. exists i, j. repeat split; lia.
  - intros (i & j & Hi & Hj & ->).
    eexists. split.
    + apply in_map_iff. exists i. split; [reflexivity|]. apply in_seq. lia.
    + apply in_map_iff. exists j. split; [reflexivity|]. apply in_seq. lia.
Qed.

Lemma max_state_not_nan m : max_state m -> is_nan m = false.
Proof. intros [-> | H]; [reflexivity|now apply is_finite_not_nan]. Qed.

Lemma track_max_fold vs : forall m, max_state m ->
  let mx := fold_left track_max vs m in
  max_state mx /\
  (forall v, In v vs -> is_finite v = true ->
             is_finite mx = true /\ (v <=? mx) = true) /\
  (is_finite m = true -> is_finite mx = true /\ (m <=? mx) = true) /\
  (mx = m \/ (In mx vs /\ is_finite mx = true)).
Proof.
  induction vs as [|v vs IH]; intros m Jm; cbn zeta; cbn [fold_left].
  - split; [exact Jm|]. split; [intros v []|].
    split; [|now left].
    intros F. split; [exact F|]. now apply leb_refl, is_finite_not_nan.
  - destruct (is_finite v) eqn:Fv.
    + assert (Et : track_max m v = Math_max m v)
        by (unfold track_max, isFinite; now rewrite Fv).
      rewrite Et. clear Et.
      pose proof (max_state_not_nan m Jm) as Nm.
      pose proof (is_finite_not_nan v Fv) as Nv.
      destruct (Math_max_spec m v Nm Nv) as (Hsel & Hm & Hv).
      set (m1 := Math_max m v) in *.
      assert (F1 : is_finite m1 = true).
      { destruct Hsel as [E|E]; [|now rewrite E].
        destruct Jm as [-> | Fm]; [|now rewrite E].
        rewrite E in Hv. now rewrite finite_not_below_neg_infinity in Hv. }
      destruct (IH m1 (or_intror F1)) as (J & Hall & Hm1 & Hsel').
      destruct (Hm1 F1) as [Fmx Hle].
      split; [exact J|]. split; [|split].
      * intros v' [<- | Hin] Fv'; [|now apply Hall].
        split; [exact Fmx|]. now apply leb_trans with m1.
      * intros _. split; [exact Fmx|]. now apply leb_trans with m1.
      * destruct Hsel' as [E | [Hin Fx]].
        -- rewrite E. destruct Hsel as [-> | ->]; [now left|].
           right. split; [now left|exact Fv].
        -- right. split; [now right|exact Fx].
    + assert (Et : track_max m v = m)
        by (unfold track_max, isFinite; now rewrite Fv).
      rewrite Et. clear Et.
      destruct (IH m Jm) as (J & Hall & Hm & Hsel).
      split; [exact J|]. split; [|split].
      * intros v' [<- | Hin] Fv'; [congruence|now apply Hall].
      * exact Hm.
      * destruct Hsel as [E | [Hin Fx]]; [now left|].
        right. split; [now right|exact Fx].
Qed.

Lemma grid_shape target i :
  length (buildContourGridWith target) = GRID_STEPS /\
  ((i < GRID_STEPS)%nat ->
   length (nth i (buildContourGridWith target) []) = GRID_STEPS).
Proof.
  rewrite buildContourGridWith_eq. unfold grid_values, grid_row.
  rewrite map_map. split.
  - now rewrite length_map, length_seq.
  - intros Hi. rewrite nth_map_seq by assumption.
    now rewrite !length_map, length_seq.
Qed.

Section Shading.

(** What the proof uses of the engine's [Math.exp]: ECMAScript fixes
    [exp(+0) = exp(-0) = 1]; that [exp] maps non-positive numbers into
    [0, 1] holds in every engine. *)
Hypothesis Hexp_zero : forall x, (x =? 0) = true -> Math_exp x = 1.
Hypothesis Hexp_unit : forall x, (x <=? 0) = true ->
  (0 <=? Math_exp x) = true /\ (Math_exp x <=? 1) = true.

(** C6. The grid produced by [buildContourGrid] has all cell values in
    [0, 1], has value 0 in every cell whose log density is not finite, and
    has a maximum of exactly 1.0, attained in some cell, unless the log
    density is finite nowhere on the grid, in which case every cell is 0. *)
Theorem grid_normalised :
  normalised_grid TARGET_LOG_PROB buildContourGrid.
Proof.
  unfold buildContourGrid. generalize TARGET_LOG_PROB as target. intros target.
  unfold normalised_grid. cbn zeta.
  destruct (track_max_fold (concat (grid_values target)) neg_infinity (or_introl eq_refl))
    as (J & Hall & _ & Hsel).
  fold (grid_max target) in J, Hall, Hsel.
  split; [exact (proj1 (grid_shape target 0))|].
  split; [exact (fun i => proj2 (grid_shape target i))|].
  split; [|split].
  - (* cells lie in [0, 1]; non-finite evaluations give 0 *)
    intros i j Hi Hj. rewrite cell_eq by assumption. unfold shade, isFinite.
    destruct (is_finite (target (grid_mu i) (grid_sig j))) eqn:Fv.
    + destruct (Hall (target (grid_mu i) (grid_sig j))) as [Fmx Hle]; auto.
      { apply In_grid_values. eauto. }
      destruct (Hexp_unit _ (sub_nonpos _ _ Fv Fmx Hle)) as [H0 H1].
      repeat split; auto. discriminate.
    + repeat split; reflexivity.
  - (* the cell that set [maxV] has intensity exp(+0) = 1 *)
    intros (i & j & Hi & Hj & Fv). unfold isFinite in Fv.
    destruct (Hall (target (grid_mu i) (grid_sig j))) as [Fmx _]; auto.
    { apply In_grid_values. eauto. }
    destruct Hsel as [E | [Hin _]].
    { rewrite E in Fmx. discriminate. }
    apply In_grid_values in Hin. destruct Hin as (i' & j' & Hi' & Hj' & E).
    exists i', j'. repeat split; auto. rewrite cell_eq by assumption.
    unfold shade, isFinite. rewrite <- E, Fmx.
    apply Hexp_zero, sub_eq_zero; auto. now apply eqb_refl, is_finite_not_nan.
  - (* nothing finite: every cell is 0 *)
    intros Hnone i j Hi Hj. rewrite cell_eq by assumption.
    unfold shade. now rewrite Hnone.
Qed.

End Shading.
End WithMath.

Lemma grid_normalised_witness :
  normalised_grid (TARGET_LOG_PROB (M := reference_Math))
                  (buildContourGrid (M := reference_Math)).
Proof.
  apply (grid_normalised (M := reference_Math)).
  - exact RefMathFacts.exp_zero.
  - exact RefMathFacts.exp_unit.
Defined.

End GridFacts.

(* ================================================================== *)
(** * The log posterior *)
(* ================================================================== *)

Module TargetFacts.
Import JS MCMC FloatSpec PrimFacts SamplerFacts Magnitude MagnitudeFacts.
Local Open Scope float_scope.

Lemma is_finite_mul x y :
  is_finite (x * y) = true -> is_finite x = true /\ is_finite y = true.
Proof.
  rewrite !is_finite_spec, mul_spec.
  destruct (Prim2SF x) as [s|s| |s m e], (Prim2SF y) as [s'|s'| |s' m' e'];
    cbn [sf_is_finite]; auto; discriminate.
Qed.

Lemma is_finite_sub x y :
  is_finite (x - y) = true -> is_finite x = true /\ is_finite y = true.
Proof.
  rewrite !is_finite_spec, sub_spec.
  destruct (Prim2SF x) as [s|s| |s m e], (Prim2SF y) as [s'|s'| |s' m' e'];
    cbn [sf_is_finite]; auto; try discriminate;
    destruct s, s'; discriminate.
Qed.

Section WithMath.
Context {M : Math}.

Lemma not_finite_of_nan x : is_nan x = true -> is_finite x = false.
Proof. unfold is_finite. now intros ->. Qed.

(** No operation of the log posterior overflows while [|mu| <= 1e30],
    [1e-30 <= sig <= 1e30] and the three numbers that come from the
    engine's logarithm are within [1e30]: the sum is below [2^419]. *)
Lemma TARGET_LOG_PROB_bounded (mu sig : float) :
  (abs mu <=? 1e30) = true ->
  (1e-30 <=? sig) = true -> (sig <=? 1e30) = true ->
  (abs (Math_log sig) <=? 1e30) = true ->
  (abs SUM_LOG_X <=? 1e30) = true -> (abs SUM_LOG_X_SQ <=? 1e30) = true ->
  below 419 (logLik mu sig + logPriorMu mu + logPriorSig sig).
Proof.
  intros Hmu Hlo Hhi HL H1 H2.
  pose proof (abs_leb_below _ 1e30 7105427357601002 47 eq_refl Hmu) as Bmu.
  pose proof (abs_leb_below _ 1e30 7105427357601002 47 eq_refl HL) as BL.
  pose proof (abs_leb_below _ 1e30 7105427357601002 47 eq_refl H1) as B1.
  pose proof (abs_leb_below _ 1e30 7105427357601002 47 eq_refl H2) as B2.
  destruct (leb_range sig 1e-30 5708990770823840 (-152) 1e30 7105427357601002 47
              eq_refl ltac:(lia) eq_refl Hlo Hhi) as [Asig Bsig].
  change (47 + 53)%Z with 100%Z in Bmu, BL, B1, B2, Bsig.
  change (-152 + 53)%Z with (-99)%Z in Asig.
  assert (C2b : below 2 2) by (eapply const_below; [reflexivity|apply Z.leb_le; vm_compute; reflexivity]).
  assert (C2a : above 2 2) by (eapply const_above; [reflexivity|apply Z.leb_le; vm_compute; reflexivity]).
  assert (C1 : below 1 1) by (eapply const_below; [reflexivity|apply Z.leb_le; vm_compute; reflexivity]).
  assert (Ch : below 0 (-0.5)) by (eapply const_below; [reflexivity|apply Z.leb_le; vm_compute; reflexivity]).
  assert (Cn : below 7 (of_int (Z.of_nat N_OBS)))
    by (eapply const_below; [reflexivity|apply Z.leb_le; vm_compute; reflexivity]).
  assert (Cn' : below 7 (- of_int (Z.of_nat N_OBS)))
    by (eapply const_below; [reflexivity|apply Z.leb_le; vm_compute; reflexivity]).
  unfold logLik, logPriorMu, logPriorSig. cbn zeta.
  (* sig * sig and the quotient *)
  pose proof (mul_below _ _ _ _ Bsig Bsig ltac:(lia) ltac:(lia) ltac:(lia)) as Bs2.
  pose proof (mul_above _ _ _ _ _ Asig Asig Bs2 ltac:(lia)) as As2.
  pose proof (mul_below _ _ _ _ C2b Bs2 ltac:(lia) ltac:(lia) ltac:(lia)) as B2s2.
  pose proof (mul_above _ _ _ _ _ C2a As2 B2s2 ltac:(lia)) as A2s2.
  pose proof (div_below _ _ _ _ C1 A2s2 ltac:(lia)) as Bq.
  (* the quadratic in mu *)
  pose proof (mul_below _ _ _ _ C2b Bmu ltac:(lia) ltac:(lia) ltac:(lia)) as B2mu.
  pose proof (mul_below _ _ _ _ B2mu B1 ltac:(lia) ltac:(lia) ltac:(lia)) as B2muS.
  pose proof (sub_below 204 _ _ (below_mono _ 204 _ B2 ltac:(lia))
                (below_mono _ 204 _ B2muS ltac:(lia)) ltac:(lia)) as Bd.
  pose proof (mul_below _ _ _ _ Cn Bmu ltac:(lia) ltac:(lia) ltac:(lia)) as Bnmu.
  pose proof (mul_below _ _ _ _ Bnmu Bmu ltac:(lia) ltac:(lia) ltac:(lia)) as Bnmu2.
  pose proof (add_below 209 _ _ (below_mono _ 209 _ Bd ltac:(lia))
                (below_mono _ 209 _ Bnmu2 ltac:(lia)) ltac:(lia)) as Bquad.
  pose proof (mul_below _ _ _ _ Bq Bquad ltac:(lia) ltac:(lia) ltac:(lia)) as Bprod.
  (* the log term and the likelihood *)
  pose proof (mul_below _ _ _ _ Cn' BL ltac:(lia) ltac:(lia) ltac:(lia)) as BnL.
  pose proof (sub_below 413 _ _ (below_mono _ 413 _ BnL ltac:(lia))
                (below_mono _ 413 _ Bprod ltac:(lia)) ltac:(lia)) as Blik.
  (* the priors *)
  pose proof (mul_below _ _ _ _ Ch Bmu ltac:(lia) ltac:(lia) ltac:(lia)) as Bhmu.
  pose proof (mul_below _ _ _ _ Bhmu Bmu ltac:(lia) ltac:(lia) ltac:(lia)) as Bpm.
  pose proof (mul_below _ _ _ _ Ch Bsig ltac:(lia) ltac:(lia) ltac:(lia)) as Bhs.
  pose proof (mul_below _ _ _ _ Bhs Bsig ltac:(lia) ltac:(lia) ltac:(lia)) as Bps.
  pose proof (add_below 415 _ _ (below_mono _ 415 _ Blik ltac:(lia))
                (below_mono _ 415 _ Bpm ltac:(lia)) ltac:(lia)) as Bsum.
  exact (add_below 417 _ _ (below_mono _ 417 _ Bsum ltac:(lia))
           (below_mono _ 417 _ Bps ltac:(lia)) ltac:(lia)).
Qed.

(** C3, as amended. [TARGET_LOG_PROB mu sig] is [-Infinity] whenever
    [sig <= 0], whatever [mu] is.  Otherwise it is the binary64 value of
    [-n log sig - (1 / (2 sig^2)) (S2 - 2 mu S1 + n mu^2) - mu^2 / 2 - sig^2 / 2]
    with [n = 80] and [S1], [S2] the cached sums of [log x] and [log^2 x]
    over the data: the LogNormal log-likelihood plus the standard-Normal
    log-prior term on [mu] and the standard-HalfNormal one on [sig].
    That value is finite for every [mu] with [|mu| <= 1e30] and every
    [sig] with [1e-30 <= sig <= 1e30], provided the engine's [log sig] and
    the two cached sums are within [1e30] in magnitude; and it is finite
    only if [sig > 0] and [mu], [sig] and [log sig] are finite.  The
    function is total: no input raises. *)
Theorem TARGET_LOG_PROB_spec (mu sig : float) :
  ((sig <=? 0) = true -> TARGET_LOG_PROB mu sig = neg_infinity) /\
  ((sig <=? 0) = false ->
     TARGET_LOG_PROB mu sig =
       - of_int 80 * Math_log sig
       - (1 / (2 * (sig * sig)))
         * (SUM_LOG_X_SQ - 2 * mu * SUM_LOG_X + of_int 80 * mu * mu)
       + -0.5 * mu * mu
       + -0.5 * sig * sig) /\
  (SUM_LOG_X = fold_left (fun s x => s + Math_log x) DATA 0 /\
   SUM_LOG_X_SQ = fold_left (fun s x => s + Math_log x * Math_log x) DATA 0) /\
  ((abs mu <=? 1e30) = true ->
   (1e-30 <=? sig) = true -> (sig <=? 1e30) = true ->
   (abs (Math_log sig) <=? 1e30) = true ->
   (abs SUM_LOG_X <=? 1e30) = true -> (abs SUM_LOG_X_SQ <=? 1e30) = true ->
   is_finite (TARGET_LOG_PROB mu sig) = true) /\
  (is_finite (TARGET_LOG_PROB mu sig) = true ->
     (0 <? sig) = true /\ is_finite sig = true /\ is_finite mu = true /\
     is_finite (Math_log sig) = true).
Proof.
  split; [|split; [|split; [|split]]].
  - intros H. unfold TARGET_LOG_PROB. now rewrite H.
  - intros H. unfold TARGET_LOG_PROB. now rewrite H.
  - split; reflexivity.
  - intros Hmu Hlo Hhi HL H1 H2.
    assert (Hle : (sig <=? 0) = false).
    { apply ltb_not_leb. destruct (sig <=? 0) eqn:E; [|].
      - assert (C : (1e-30 <=? 0) = true) by (eapply leb_trans; eassumption).
        discriminate C.
      - destruct (not_leb_0 _ E) as [N|P]; [|exact P].
        destruct (leb_not_nan _ _ Hhi) as [N' _]. congruence. }
    unfold TARGET_LOG_PROB. rewrite Hle.
    eapply below_finite, TARGET_LOG_PROB_bounded; eassumption.
  - intros F. destruct (sig <=? 0) eqn:Hle.
    + unfold TARGET_LOG_PROB in F. rewrite Hle in F. discriminate.
    + destruct (not_leb_0 _ Hle) as [Hnan|Hpos].
      * rewrite (not_finite_of_nan _ (TARGET_nan_sig mu sig Hnan)) in F.
        discriminate.
      * unfold TARGET_LOG_PROB in F. rewrite Hle in F.
        apply is_finite_add in F. destruct F as [F Fs].
        apply is_finite_add in F. destruct F as [Fl Fm].
        unfold logPriorSig in Fs. apply is_finite_mul in Fs.
        unfold logPriorMu in Fm. apply is_finite_mul in Fm.
        unfold logLik in Fl. cbn zeta in Fl. apply is_finite_sub in Fl.
        destruct Fl as [Fl _]. apply is_finite_mul in Fl.
        repeat split; tauto.
Qed.

(** Whatever the engine's logarithm returns, [mu = 1e200] overflows the
    prior term and the log posterior is not finite. *)
Lemma TARGET_LOG_PROB_overflow :
  is_finite (TARGET_LOG_PROB 1e200 1) = false.
Proof.
  destruct (is_finite (TARGET_LOG_PROB 1e200 1)) eqn:F; [|reflexivity].
  unfold TARGET_LOG_PROB in F. change (1 <=? 0) with false in F.
  apply is_finite_add in F. destruct F as [F _].
  apply is_finite_add in F. destruct F as [_ F].
  discriminate F.
Qed.

End WithMath.

(** At the starting state of the sampler, with the reference engine, the
    bounds hold and the log posterior is finite. *)
Lemma TARGET_LOG_PROB_spec_witness :
  is_finite (TARGET_LOG_PROB (M := reference_Math) 1 0.6) = true.
Proof.
  apply (proj1 (proj2 (proj2 (proj2
           (TARGET_LOG_PROB_spec (M := reference_Math) 1 0.6)))));
    vm_compute; reflexivity.
Defined.

(** C3 fails as stated: [mu = 1e200] is finite and [sig = 1] is positive,
    but [mu * mu] overflows and the log posterior is [-Infinity]. *)
Lemma TARGET_LOG_PROB_not_always_finite :
  (0 <? 1) = true /\ is_finite 1e200 = true /\
  TARGET_LOG_PROB (M := reference_Math) 1e200 1 = neg_infinity /\
  is_finite (TARGET_LOG_PROB (M := reference_Math) 1e200 1) = false.
Proof. vm_compute. repeat split. Qed.

End TargetFacts.

(* ================================================================== *)
(** * The Beta-Binomial updater *)
(* ================================================================== *)

Module BetaFacts.
Import JS BetaBinomial PrimFacts.
Local Open Scope float_scope.

Lemma count_true (obs : list bool) :
  length (filter (fun v => v) obs) = count_occ bool_dec obs true.
Proof.
  induction obs as [|v obs IH]; [reflexivity|].
  cbn [filter count_occ]. destruct (bool_dec v true) as [-> | Hv].
  - cbn [length]. now rewrite IH.
  - destruct v; [congruence|exact IH].
Qed.

Lemma count_split (obs : list bool) :
  (length (filter (fun v => v) obs) + length (filter (fun v => negb v) obs)
   = length obs)%nat.
Proof.
  induction obs as [|[] obs IH]; cbn [filter negb length]; lia.
Qed.

(** C5. For every prior the component can hold and every sequence of
    observations, the posterior parameters are [(alpha + k, beta + (n - k))]
    with [k] the number of successes among the [n] observations; one more
    observation moves exactly one of them by exactly one; and from the
    prior (1, 1), three successes and one failure give exactly (4, 2), with
    posterior mean the binary64 quotient 4/6. *)
Theorem beta_binomial_update :
  (forall u d, render u = Some d ->
     let k := Z.of_nat (count_occ bool_dec (observations u) true) in
     n d = Z.of_nat (length (observations u)) /\
     postA d = (priorA d + k)%Z /\
     postB d = (priorB d + (n d - k))%Z /\
     (exists d1, render (addObs true u) = Some d1 /\
                 postA d1 = (postA d + 1)%Z /\ postB d1 = postB d) /\
     (exists d0, render (addObs false u) = Some d0 /\
                 postA d0 = postA d /\ postB d0 = (postB d + 1)%Z)) /\
  render (addObs false (addObs true (addObs true (addObs true initial)))) =
    Some {| priorA := 1; priorB := 1; successes := 3; failures := 1;
            postA := 4; postB := 2; n := 4; posteriorMean := 4 / 6 |}.
Proof.
  split; [|reflexivity].
  intros u d. unfold render, addObs. cbn [priorPreset observations].
  destruct (nth_error PRESETS (priorPreset u)) as [p|]; [|discriminate].
  intros [= <-]. cbn [n postA postB priorA priorB].
  rewrite <- count_true. pose proof (count_split (observations u)) as Hs.
  rewrite !filter_app, !length_app. cbn [filter negb length].
  repeat split; try lia.
  - eexists. split; [reflexivity|]. cbn [postA postB]. split; lia.
  - eexists. split; [reflexivity|]. cbn [postA postB]. split; lia.
Qed.

(** A zero minus a number other than zero is the opposite of that number. *)
Lemma zero_sub z l :
  z = 0 \/ z = -0 -> (l =? 0) = false -> z - l = - l.
Proof.
  intros Hz Hl. apply Prim2SF_inj. rewrite sub_spec, opp_spec.
  rewrite eqb_spec in Hl. change (Prim2SF 0) with (S754_zero false) in Hl.
  destruct (Prim2SF l) as [s|s| |s m e]; [destruct s; discriminate Hl| | |];
    destruct Hz as [-> | ->]; reflexivity.
Qed.

Section WithMath.
Context {M : Math}.

Lemma betaPDF_outside x a b :
  (x <=? 0) = true \/ (1 <=? x) = true -> betaPDF x a b = 0.
Proof.
  intros H. unfold betaPDF.
  destruct H as [-> | ->]; [reflexivity|]. now rewrite orb_true_r.
Qed.

(** With [a = b = 1] both exponents are zero, the two products are zeros
    and their sum is a zero; subtracting a [logBeta 1 1] that is not zero
    leaves its opposite, whatever the sign of that zero. *)
Lemma betaPDF_uniform x :
  (0 <? x) = true -> (x <? 1) = true ->
  is_finite (Math_log x) = true -> is_finite (Math_log (1 - x)) = true ->
  (logBeta 1 1 =? 0) = false ->
  betaPDF x 1 1 = Math_exp (- logBeta 1 1).
Proof.
  intros H0 H1 Fx F1x HL. unfold betaPDF.
  rewrite (ltb_not_leb _ _ H0), (ltb_not_leb _ _ H1). cbn [orb].
  change (1 - 1) with 0. f_equal. apply zero_sub; [|exact HL].
  apply zero_add_zero; apply zero_mul_finite; auto.
Qed.

(** [logGamma] at 1 and 2: the Lanczos series is a fixed binary64 number,
    and the engine's logarithm is called at two fixed arguments each. *)
Lemma logGamma_1 :
  logGamma 1 = - (6.5 - 1.5 * Math_log 6.5) + Math_log 40.136925019085162.
Proof. reflexivity. Qed.

Lemma logGamma_2 :
  logGamma 2 = - (7.5 - 2.5 * Math_log 7.5) + Math_log 11.736955431055112.
Proof. reflexivity. Qed.

Lemma logBeta_1_1_value :
  Math_log 6.5 = 1.8718021769015913 ->
  Math_log 40.136925019085162 = 3.6922967340333024 ->
  Math_log 7.5 = 2.0149030205422647 ->
  Math_log 11.736955431055112 = 2.462742447807813 ->
  logBeta 1 1 = -3.9209568925002714e-10.
Proof.
  intros L1 L2 L3 L4. unfold logBeta. change (1 + 1) with 2.
  rewrite logGamma_1, logGamma_2, L1, L2, L3, L4. reflexivity.
Qed.

End WithMath.

(** C8, as amended. [betaPDF x a b] is 0 for every [x <= 0] and every
    [x >= 1], on every engine.  For [a = b = 1] and [x] strictly between 0
    and 1 (where the engine's logarithms of [x] and [1 - x] are finite and
    its [logBeta 1 1] is not zero) it is [exp (- logBeta 1 1)]: one value,
    the same for every such [x].  On an engine whose logarithm and
    exponential return the correctly rounded values at the five arguments
    this involves, [logBeta 1 1] is [-3.9209568925002714e-10] and that one
    value is [1.0000000003920957]: above 1, and within [1e-9] of it. *)
Theorem betaPDF_support_and_uniform :
  (forall (M : Math) x a b,
     (x <=? 0) = true \/ (1 <=? x) = true -> betaPDF x a b = 0) /\
  (forall (M : Math) x,
     (0 <? x) = true -> (x <? 1) = true ->
     is_finite (Math_log x) = true -> is_finite (Math_log (1 - x)) = true ->
     (logBeta 1 1 =? 0) = false ->
     betaPDF x 1 1 = Math_exp (- (logGamma 1 + logGamma 1 - logGamma 2))) /\
  (forall (M : Math) x,
     (0 <? x) = true -> (x <? 1) = true ->
     is_finite (Math_log x) = true -> is_finite (Math_log (1 - x)) = true ->
     Math_log 6.5 = 1.8718021769015913 ->
     Math_log 40.136925019085162 = 3.6922967340333024 ->
     Math_log 7.5 = 2.0149030205422647 ->
     Math_log 11.736955431055112 = 2.462742447807813 ->
     Math_exp 3.9209568925002714e-10 = 1.0000000003920957 ->
     logBeta 1 1 = -3.9209568925002714e-10 /\
     betaPDF x 1 1 = 1.0000000003920957) /\
  (1 <? 1.0000000003920957) = true /\
  (1.0000000003920957 <? 1.000000001) = true.
Proof.
  split; [|split; [|split; [|split; reflexivity]]].
  - intros M x a b. apply betaPDF_outside.
  - intros M x H0 H1 Fx F1x HL. now apply betaPDF_uniform.
  - intros M x H0 H1 Fx F1x L1 L2 L3 L4 E5.
    pose proof (logBeta_1_1_value L1 L2 L3 L4) as HL. split; [exact HL|].
    rewrite (betaPDF_uniform x H0 H1 Fx F1x) by (rewrite HL; reflexivity).
    rewrite HL. exact E5.
Qed.

(** The reference engine meets every condition at [x = 0.5]. *)
Lemma betaPDF_support_and_uniform_witness :
  betaPDF (M := reference_Math) 0.5 1 1 = 1.0000000003920957.
Proof.
  apply (proj1 (proj2 (proj2 betaPDF_support_and_uniform)) reference_Math 0.5);
    vm_compute; reflexivity.
Defined.

(** C8 fails as stated: with logarithm and exponential accurate to the
    last place, [betaPDF 0.5 1 1] is [1.0000000003920957], not 1. *)
Lemma betaPDF_uniform_not_exactly_one :
  (0 <? 0.5) = true /\ (0.5 <? 1) = true /\
  betaPDF (M := reference_Math) 0.5 1 1 = 1.0000000003920957 /\
  (betaPDF (M := reference_Math) 0.5 1 1 =? 1) = false.
Proof. vm_compute. repeat split. Qed.

End BetaFacts.

(* ================================================================== *)
(** * The Normal-Normal update *)
(* ================================================================== *)

Module NormalFacts.
Import JS.
Local Open Scope float_scope.

(** C4, as amended. [PosteriorUpdateVisualization] computes the posterior
    variance as [1 / (1/sigma0^2 + 1/sigmaD^2)] and the posterior mean as
    that variance times the precision-weighted sum
    [mu0/sigma0^2 + xbar/sigmaD^2]; for prior (0, 1) and data (10, 1) its
    posterior mean is exactly 5 and its posterior sd is [sqrt 0.5].
    [ChapterInference] computes the same sd, and the mean as the square of
    that sd times [prec0 * mu0 + precD * xbar]: for the same inputs its sd
    is [sqrt 0.5] and its mean is 5.000000000000001, the binary64 number
    next above 5. *)
Theorem normal_normal_update :
  (forall sigma0 sigmaD,
     PosteriorUpdateVisualization.posteriorVar sigma0 sigmaD
     = 1 / (1 / (sigma0 * sigma0) + 1 / (sigmaD * sigmaD))) /\
  (forall mu0 sigma0 xbar sigmaD,
     PosteriorUpdateVisualization.posteriorMu mu0 sigma0 xbar sigmaD
     = PosteriorUpdateVisualization.posteriorVar sigma0 sigmaD
       * (mu0 / (sigma0 * sigma0) + xbar / (sigmaD * sigmaD))) /\
  PosteriorUpdateVisualization.posteriorMu 0 1 10 1 = 5 /\
  PosteriorUpdateVisualization.posteriorSigma 1 1 = PrimFloat.sqrt 0.5 /\
  (forall sigma0 sigmaD,
     ChapterInference.posteriorSigma sigma0 sigmaD
     = PrimFloat.sqrt (1 / (1 / (sigma0 * sigma0) + 1 / (sigmaD * sigmaD)))) /\
  (forall mu0 sigma0 xbar sigmaD,
     ChapterInference.posteriorMu mu0 sigma0 xbar sigmaD
     = ChapterInference.posteriorSigma sigma0 sigmaD
       * ChapterInference.posteriorSigma sigma0 sigmaD
       * (1 / (sigma0 * sigma0) * mu0 + 1 / (sigmaD * sigmaD) * xbar)) /\
  ChapterInference.posteriorSigma 1 1 = PrimFloat.sqrt 0.5 /\
  ChapterInference.posteriorMu 0 1 10 1 = 5.000000000000001 /\
  ChapterInference.posteriorMu 0 1 10 1 = next_up 5.
Proof. repeat split. Qed.

(** C4 fails as stated for [ChapterInference]: squaring the rounded
    square root of 0.5 gives 0.5000000000000001, and the posterior mean
    for prior (0, 1) and data (10, 1) is not 5. *)
Lemma chapter_posterior_mean_not_5 :
  (ChapterInference.posteriorMu 0 1 10 1 =? 5) = false /\
  ChapterInference.posteriorMu 0 1 10 1 <> 5.
Proof.
  split; [reflexivity|].
  intros E. apply (f_equal (fun v => v =? 5)) in E. vm_compute in E. discriminate.
Qed.

End NormalFacts.

(* ================================================================== *)
(** * Further properties of the components *)
(* ================================================================== *)

(** ** More binary64 facts *)

Module MoreFloatFacts.
Import FloatSpec FloatFacts PrimFacts PlotSpec.
Local Open Scope float_scope.

Lemma SFadd_comm x y : SF64add x y = SF64add y x.
Proof.
  unfold SF64add, SFadd.
  destruct x as [[]|[]| |sx mx ex], y as [[]|[]| |sy my ey]; try reflexivity.
  rewrite (Z.min_comm ey ex). f_equal. apply Z.add_comm.
Qed.

Lemma add_comm x y : x + y = y + x.
Proof. apply Prim2SF_inj. rewrite !add_spec. apply SFadd_comm. Qed.

Lemma is_nan_add_l x y : is_nan x = true -> is_nan (x + y) = true.
Proof. intros H. rewrite add_comm. now apply is_nan_add_r. Qed.

Lemma is_nan_mul_l x y : is_nan x = true -> is_nan (x * y) = true.
Proof.
  rewrite !is_nan_spec, mul_spec. destruct (Prim2SF x); try discriminate.
  reflexivity.
Qed.

Lemma is_nan_div_r x y : is_nan y = true -> is_nan (x / y) = true.
Proof.
  rewrite !is_nan_spec, div_spec. destruct (Prim2SF y); try discriminate.
  intros _. destruct (Prim2SF x); reflexivity.
Qed.

Lemma is_nan_eq x : is_nan x = true -> x = nan.
Proof.
  rewrite is_nan_spec. intros H. apply Prim2SF_inj.
  destruct (Prim2SF x); try discriminate. reflexivity.
Qed.

Lemma ltb_not_nan_r a b : (a <? b) = true -> is_nan b = false.
Proof.
  rewrite ltb_spec, is_nan_spec. intros H.
  now destruct (SFltb_not_nan _ _ H).
Qed.

(** A number that is neither below nor above a positive finite number is
    that number. *)
Lemma eq_of_not_lt x c m e :
  Prim2SF c = S754_finite false m e ->
  is_nan x = false -> (x <? c) = false -> (c <? x) = false -> x = c.
Proof.
  intros Hc Nx H1 H2.
  assert (Nc : is_nan c = false) by (rewrite is_nan_spec, Hc; reflexivity).
  destruct (not_ltb_leb x c Nx Nc H1 H2) as [L1 L2].
  rewrite leb_spec in L1, L2. rewrite is_nan_spec in Nx, Nc.
  apply SFleb_key in L1; auto. apply SFleb_key in L2; auto.
  apply Prim2SF_inj. rewrite Hc in *.
  destruct (Prim2SF x) as [[]|[]| |[] mx ex];
    cbn [sf_key key_le] in L1, L2; try discriminate Nx; try lia.
  assert (ex = e) by lia. assert (mx = m) by lia. now subst.
Qed.

(** [Math.max (s, c)] is [c] whenever [s <= c], for a positive finite [c]. *)
Lemma Math_max_floor s c m e :
  Prim2SF c = S754_finite false m e ->
  (s <=? c) = true -> JS.Math_max s c = c.
Proof.
  intros Hc Hle. destruct (leb_not_nan _ _ Hle) as [Ns Nc].
  unfold JS.Math_max. rewrite Ns, Nc. cbn [orb].
  destruct (s <? c) eqn:H1; [reflexivity|].
  destruct (c <? s) eqn:H2.
  { apply ltb_not_leb in H2. congruence. }
  rewrite (eq_of_not_lt s c m e Hc Ns H1 H2). now destruct (get_sign c).
Qed.

Lemma Math_max_nan_l s c : is_nan s = true -> JS.Math_max s c = nan.
Proof. intros H. unfold JS.Math_max. now rewrite H. Qed.

(** *** Operations that cannot produce NaN *)

Lemma signed_not_nan s f : sf_signed s f -> sf_is_nan f = false.
Proof. destruct f; cbn; auto; contradiction. Qed.

(** A difference is NaN only for a NaN operand or two infinities. *)
Lemma SFsub_not_nan x y :
  sf_is_nan x = false -> sf_is_nan y = false ->
  sf_is_finite x = true \/ sf_is_finite y = true ->
  sf_is_nan (SF64sub x y) = false.
Proof.
  intros Nx Ny F. unfold SF64sub, SFsub.
  destruct x as [sx|sx| |sx mx ex], y as [sy|sy| |sy my ey];
    try discriminate; try reflexivity;
    try (destruct sx, sy; reflexivity);
    try (destruct F; discriminate).
  match goal with |- sf_is_nan (binary_normalize _ _ ?d _ _) = false =>
    destruct d as [|p|p] end; cbn [binary_normalize]; [reflexivity| |];
    eapply signed_not_nan, binary_round_signed.
Qed.

Lemma div_eucl_nonneg a b :
  (0 <= a)%Z -> (0 < b)%Z -> (0 <= fst (Z.div_eucl a b))%Z.
Proof.
  intros Ha Hb. change (fst (Z.div_eucl a b)) with (a / b)%Z.
  now apply Z.div_pos.
Qed.

Lemma SFdiv_not_nan x s m e :
  sf_is_nan x = false -> sf_is_nan (SF64div x (S754_finite s m e)) = false.
Proof.
  intros Nx. unfold SF64div, SFdiv.
  destruct x as [sx|sx| |sx mx ex]; try discriminate; try reflexivity.
  unfold SFdiv_core_binary.
  match goal with |- context [Z.div_eucl ?a ?b] =>
    pose proof (div_eucl_nonneg a b) as Hq;
    destruct (Z.div_eucl a b) as [q r] end.
  cbn [fst] in Hq. eapply signed_not_nan, binary_round_aux_signed.
  apply Hq; [|lia].
  destruct (ex - e - _)%Z; try lia. apply Z.shiftl_nonneg. lia.
Qed.

Lemma SFmul_not_nan x s m e :
  sf_is_nan x = false -> sf_is_nan (SF64mul x (S754_finite s m e)) = false.
Proof.
  intros Nx. unfold SF64mul, SFmul.
  destruct x as [sx|sx| |sx mx ex]; try discriminate; try reflexivity.
  eapply signed_not_nan, binary_round_aux_signed. lia.
Qed.

Lemma mul_not_nan x c :
  finite_nonzero c = true -> is_nan x = false -> is_nan (x * c) = false.
Proof.
  unfold finite_nonzero. rewrite !is_nan_spec, mul_spec.
  destruct (Prim2SF c) as [| | |s m e]; try discriminate. intros _.
  apply SFmul_not_nan.
Qed.

Lemma div_not_nan x c :
  finite_nonzero c = true -> is_nan x = false -> is_nan (x / c) = false.
Proof.
  unfold finite_nonzero. rewrite !is_nan_spec, div_spec.
  destruct (Prim2SF c) as [| | |s m e]; try discriminate. intros _.
  apply SFdiv_not_nan.
Qed.

Lemma sub_not_nan_r x c :
  is_finite c = true -> is_nan x = false -> is_nan (x - c) = false.
Proof.
  rewrite !is_nan_spec, is_finite_spec, sub_spec. intros F N.
  apply SFsub_not_nan; auto.
  destruct (Prim2SF c); try discriminate; reflexivity.
Qed.

Lemma sub_not_nan_l c x :
  is_finite c = true -> is_nan x = false -> is_nan (c - x) = false.
Proof.
  rewrite !is_nan_spec, is_finite_spec, sub_spec. intros F N.
  apply SFsub_not_nan; auto.
  destruct (Prim2SF c); try discriminate; reflexivity.
Qed.

(** *** Division by zero in the conjugate update

    With [inf = 1 / 0] the posterior variance [1 / (inf + r)] is a zero or
    NaN and the precision-weighted sum is an infinity or NaN, whatever the
    other operands: their product is NaN. *)

Lemma zero_sd_class (pm dm r : spec_float) :
  let inf := SF64div (Prim2SF 1) (S754_zero false) in
  let var := SF64div (Prim2SF 1) (SF64add inf r) in
  sf_is_nan (SF64mul var (SF64add (SF64div pm (S754_zero false)) dm)) = true.
Proof.
  cbn zeta. change (Prim2SF 1) with (S754_finite false 4503599627370496 (-52)).
  destruct pm as [[]|[]| |[] ? ?], dm as [[]|[]| |[] ? ?], r as [[]|[]| |[] ? ?];
    reflexivity.
Qed.

Lemma zero_sd_class_chapter (pm dm r : spec_float) :
  let inf := SF64div (Prim2SF 1) (S754_zero false) in
  let sd := SF64sqrt (SF64div (Prim2SF 1) (SF64add inf r)) in
  sf_is_nan (SF64mul (SF64mul sd sd) (SF64add (SF64mul inf pm) dm)) = true.
Proof.
  cbn zeta. change (Prim2SF 1) with (S754_finite false 4503599627370496 (-52)).
  destruct pm as [[]|[]| |[] ? ?], dm as [[]|[]| |[] ? ?], r as [[]|[]| |[] ? ?];
    reflexivity.
Qed.

End MoreFloatFacts.

(** ** The sampler: generator, data, step, run, drawing *)

Module MoreSamplerFacts.
Import JS MCMC Plot SamplerSpec PlotSpec PrimFacts SamplerFacts MoreFloatFacts.
Local Open Scope float_scope.

(** X1. On every state [s] with [|s| <= 2^32] (the seeds of the slider,
    [SEED_DATA], and every state the generator stores) [seededRNG] is the
    linear congruential generator
    [s' = (1664525 s + 1013904223) mod 2^32] on the unsigned reading of
    its state: the sum formed before masking is below 2^53 in magnitude,
    so the binary64 arithmetic of the source is exact; the state stored
    is a signed 32-bit integer, hence again within the bound; and the
    number returned is the new unsigned state divided by 2^32. *)
Theorem lcg_recurrence (s : Z) :
  (- 2 ^ 32 <= s <= 2 ^ 32)%Z ->
  (- 2 ^ 53 < s * 1664525 < 2 ^ 53)%Z /\
  (- 2 ^ 53 < s * 1664525 + 1013904223 < 2 ^ 53)%Z /\
  (- 2 ^ 31 <= lcg_next s < 2 ^ 31)%Z /\
  ushr0 (lcg_next s) = ((1664525 * ushr0 s + 1013904223) mod 2 ^ 32)%Z /\
  lcg_uniform (lcg_next s)
    = of_int ((1664525 * ushr0 s + 1013904223) mod 2 ^ 32) / 4294967296.
Proof.
  intros Hs.
  assert (R : (- 2 ^ 31 <= lcg_next s < 2 ^ 31)%Z).
  { unfold lcg_next, and_ffffffff, ToInt32.
    match goal with |- (_ <= ?a mod ?b - _ < _)%Z =>
      pose proof (Z.mod_pos_bound a b ltac:(lia)) end. lia. }
  assert (U : ushr0 (lcg_next s)
              = ((1664525 * ushr0 s + 1013904223) mod 2 ^ 32)%Z).
  { unfold lcg_next, and_ffffffff, ushr0, ToUint32, ToInt32.
    change (((4294967295 + 2 ^ 31) mod 2 ^ 32 - 2 ^ 31))%Z with (-1)%Z.
    rewrite Z.land_m1_r. Z.div_mod_to_equations. lia. }
  repeat split; try lia; try exact U.
  unfold lcg_uniform. now rewrite U.
Qed.

Lemma lcg_recurrence_witness :
  (- 2 ^ 53 < 42 * 1664525 < 2 ^ 53)%Z /\
  (- 2 ^ 53 < 42 * 1664525 + 1013904223 < 2 ^ 53)%Z /\
  (- 2 ^ 31 <= lcg_next 42 < 2 ^ 31)%Z /\
  ushr0 (lcg_next 42) = ((1664525 * ushr0 42 + 1013904223) mod 2 ^ 32)%Z /\
  lcg_uniform (lcg_next 42)
    = of_int ((1664525 * ushr0 42 + 1013904223) mod 2 ^ 32) / 4294967296.
Proof. apply (lcg_recurrence 42). lia. Defined.

Section WithMath.
Context {M : Math}.

Lemma box_muller_length k : forall normals s,
  length (fst (box_muller k normals s)) = (length normals + 2 * k)%nat.
Proof.
  induction k as [|k IH]; intros normals s; cbn [box_muller].
  - unfold ret. cbn [fst]. lia.
  - unfold bind, lcg_draw. rewrite IH, length_app. cbn [length]. lia.
Qed.

(** X2. [genData (seed, n, mu, sig)] returns exactly [n] values, for odd
    [n] too (the Box-Muller loop makes [ceil (n / 2)] pairs and the slice
    drops the spare one); so [DATA] has [N_OBS] entries. *)
Theorem genData_length (seed : Z) (n : nat) (mu sig : float) :
  length (genData seed n mu sig) = n /\ length DATA = N_OBS.
Proof.
  assert (G : forall sd k m s, length (genData sd k m s) = k).
  { intros sd k m s. unfold genData.
    rewrite length_map, length_firstn, box_muller_length. cbn [length].
    rewrite Nat.div2_div.
    pose proof (Nat.div_mod_eq (k + 1) 2) as E.
    pose proof (Nat.mod_upper_bound (k + 1) 2 ltac:(lia)). lia. }
  split; [apply G|]. unfold DATA. apply G.
Qed.

(** X4. NaN arguments of [TARGET_LOG_PROB].  A NaN [sig] passes the guard
    [sig <= 0] and the result is NaN; a NaN [mu] gives NaN when [sig] is
    not [<= 0], and [-Infinity] when it is, the guard coming first. *)
Theorem TARGET_LOG_PROB_nan (mu sig : float) :
  (is_nan sig = true -> is_nan (TARGET_LOG_PROB mu sig) = true) /\
  (is_nan mu = true -> (sig <=? 0) = false ->
     is_nan (TARGET_LOG_PROB mu sig) = true) /\
  (is_nan mu = true -> (sig <=? 0) = true ->
     TARGET_LOG_PROB mu sig = neg_infinity).
Proof.
  split; [|split].
  - intros H. unfold TARGET_LOG_PROB. rewrite (leb_nan_l _ _ H).
    apply is_nan_add_r. unfold logPriorSig. now apply is_nan_mul_r.
  - intros H Hle. unfold TARGET_LOG_PROB. rewrite Hle.
    apply is_nan_add_l, is_nan_add_r. unfold logPriorMu. now apply is_nan_mul_r.
  - intros _ Hle. unfold TARGET_LOG_PROB. now rewrite Hle.
Qed.

(** X5. After [runSampler] the trajectory is the starting state followed
    by the first 80 of the stored samples (all of them when there are
    fewer): the line drawn runs through the first dots drawn, in order. *)
Theorem path_follows_samples (c : Component) :
  path (runSampler c) = start :: firstn 80 (samples (runSampler c)).
Proof.
  destruct (runSampler_spec c) as (Hs & Hp & _).
  rewrite Hs, Hp. now rewrite firstn_map.
Qed.

Lemma chain_prefix step k j : forall mu sig e,
  firstn k (chain step (k + j) mu sig e) = chain step k mu sig e.
Proof.
  induction k as [|k IH]; intros mu sig e; [reflexivity|].
  cbn [Nat.add chain].
  destruct (mhStep mu sig step e) as [[[nm ns] acc] e'].
  cbn [firstn]. now rewrite IH.
Qed.

(** X6. With the same seed and step size, asking for more samples only
    extends the run: the samples of the shorter run are the first samples
    of the longer one, and so is its trajectory. *)
Theorem samples_extend (c1 c2 : Component) :
  seed c1 = seed c2 ->
  stepSize c1 = stepSize c2 ->
  (0 <= numSamples c1 <= numSamples c2)%Z ->
  samples (runSampler c1)
    = firstn (Z.to_nat (numSamples c1)) (samples (runSampler c2)) /\
  path (runSampler c1)
    = firstn (S (Z.to_nat (numSamples c1))) (path (runSampler c2)).
Proof.
  intros Hseed Hstep Hn.
  assert (P : forall c,
             path (runSampler c) = start :: firstn 80 (samples (runSampler c))).
  { intros c. destruct (runSampler_spec c) as (Hs & Hp & _).
    rewrite Hs, Hp. now rewrite firstn_map. }
  assert (Hs : samples (runSampler c1)
               = firstn (Z.to_nat (numSamples c1)) (samples (runSampler c2))).
  { destruct (runSampler_spec c1) as (Hs1 & _).
    destruct (runSampler_spec c2) as (Hs2 & _).
    rewrite Hs1, Hs2. rewrite firstn_map.
    rewrite firstn_skipn_comm. unfold run_chain. rewrite Hseed, Hstep.
    replace (Z.to_nat (numSamples c2 + Z.of_nat burnIn))
      with ((burnIn + Z.to_nat (numSamples c1))
            + Z.to_nat (numSamples c2 - numSamples c1))%nat by (unfold burnIn; lia).
    rewrite chain_prefix.
    replace (Z.to_nat (numSamples c1 + Z.of_nat burnIn))
      with (burnIn + Z.to_nat (numSamples c1))%nat by (unfold burnIn; lia).
    reflexivity. }
  split; [exact Hs|].
  rewrite (P c1), (P c2), Hs.
  rewrite firstn_cons, !firstn_firstn. do 2 f_equal. lia.
Qed.

(** X7. The loop of [runSampler] accepts between 0 and [total] of its
    [total] steps; with [total <= 0] the body never runs: no sample, the
    starting state alone in the trajectory, nothing accepted. *)
Theorem accepted_count_bounded (sd : Z) (step : float) (total : Z) :
  (0 <= accepted (run_loop sd step total) <= Z.max 0 total)%Z /\
  ((total <= 0)%Z ->
     newSamples (run_loop sd step total) = [] /\
     trajectory (run_loop sd step total) = [start] /\
     accepted (run_loop sd step total) = 0%Z).
Proof.
  unfold run_loop.
  pose proof (loop_from step (Z.to_nat total) 0 (loop_init sd)) as H.
  cbn zeta in H. destruct H as (Hs & Ht & Ha).
  split.
  - rewrite Ha. cbn [accepted loop_init].
    pose proof (filter_length_le was_accepted
                  (chain step (Z.to_nat total) (mu (loop_init sd))
                     (sig (loop_init sd)) (env (loop_init sd)))) as Hle.
    rewrite chain_length in Hle. lia.
  - intros Hle. replace (Z.to_nat total) with 0%nat by lia.
    cbn [seq fold_left]. repeat split.
Qed.

(** A step from a state without NaN and with positive sigma ends in such
    a state: a NaN proposal makes [logAlpha] NaN, and [<] is then false. *)
Lemma mhStep_no_NaN mu sig step e :
  is_nan mu = false -> (0 <? sig) = true ->
  let '(nm, ns, _, _) := mhStep mu sig step e in
  is_nan nm = false /\ (0 <? ns) = true.
Proof.
  intros Hmu Hsig. pose proof (mhStep_cases mu sig step e) as H.
  pose proof (mhStep_sig_pos mu sig step e Hsig) as Hpos.
  destruct (mhStep mu sig step e) as [[[nm ns] acc] e'].
  split; [|exact Hpos].
  destruct H as [(-> & _ & _)|(_ & Hle & l & lc & Hlt)]; [assumption|].
  destruct (is_nan nm) eqn:Hn; [|reflexivity].
  rewrite ltb_nan_r in Hlt; [discriminate|].
  apply is_nan_sub_l. unfold TARGET_LOG_PROB. rewrite Hle.
  apply is_nan_add_l, is_nan_add_r. unfold logPriorMu. now apply is_nan_mul_r.
Qed.

Lemma chain_no_NaN step k : forall mu sig e,
  is_nan mu = false -> (0 <? sig) = true ->
  Forall no_NaN (map point_of (chain step k mu sig e)).
Proof.
  induction k as [|k IH]; intros mu sig e Hmu Hsig; cbn [chain map]; [constructor|].
  pose proof (mhStep_no_NaN mu sig step e Hmu Hsig) as H.
  destruct (mhStep mu sig step e) as [[[nm ns] acc] e'].
  destruct H as [Hn Hp]. cbn [map]. constructor.
  - split; [exact Hn|]. exact (ltb_not_nan_r _ _ Hp).
  - now apply IH.
Qed.

(** X8. Nothing drawn is at a NaN position.  [toSVG] maps a point without
    NaN to a point without NaN (infinite coordinates included); and for
    every step size, NaN and infinite ones too, and whatever the engine's
    [Math.log] returns, no sample and no trajectory point stored by
    [runSampler] has a NaN coordinate, nor has its image under [toSVG]. *)
Theorem drawn_points_no_NaN :
  (forall mu sig, is_nan mu = false -> is_nan sig = false ->
     no_NaN (toSVG mu sig)) /\
  (forall c : Component,
     Forall (fun p => no_NaN p /\ no_NaN (toSVG (x p) (y p)))
       (samples (runSampler c)) /\
     Forall (fun p => no_NaN p /\ no_NaN (toSVG (x p) (y p)))
       (path (runSampler c))).
Proof.
  assert (T : forall mu sig, is_nan mu = false -> is_nan sig = false ->
                no_NaN (toSVG mu sig)).
  { intros mu sig Hmu Hsig. unfold no_NaN, toSVG. cbn [x y]. split.
    - apply mul_not_nan; [reflexivity|].
      apply div_not_nan; [reflexivity|].
      apply sub_not_nan_r; [reflexivity|exact Hmu].
    - apply sub_not_nan_l; [reflexivity|].
      apply mul_not_nan; [reflexivity|].
      apply div_not_nan; [reflexivity|].
      apply sub_not_nan_r; [reflexivity|exact Hsig]. }
  split; [exact T|]. intros c.
  assert (D : forall l, Forall no_NaN l ->
                Forall (fun p => no_NaN p /\ no_NaN (toSVG (x p) (y p))) l).
  { intros l. apply Forall_impl. intros p Hp. split; [exact Hp|].
    destruct Hp as [Hx Hy]. now apply T. }
  destruct (runSampler_spec c) as (Hs & Hp & _).
  assert (Hc : Forall no_NaN (map point_of (run_chain c)))
    by (apply chain_no_NaN; reflexivity).
  rewrite Hs, Hp. split; apply D.
  - rewrite <- skipn_map. now apply Forall_skipn_of.
  - constructor; [split; reflexivity|].
    rewrite <- firstn_map, <- skipn_map.
    now apply Forall_firstn_of, Forall_skipn_of.
Qed.

(** X9. What [buildContourGrid] stores.  With [v i j] the log posterior at
    grid node [(i, j)] and [maxV] the running maximum after the first
    pass: cell [(i, j)] holds [exp (v i j - maxV)] if [v i j] is finite and
    [0] otherwise; every finite [v i j] is [<= maxV], and [maxV] is then
    finite; if some node is finite, [maxV] is the value at one of the
    nodes; if none is, [maxV] is still [-Infinity] and every cell is 0. *)
Theorem grid_cells_relative_to_max :
  let v i j := TARGET_LOG_PROB (grid_mu i) (grid_sig j) in
  let cell i j := nth j (nth i buildContourGrid []) 0 in
  let maxV := grid_max TARGET_LOG_PROB in
  (forall i j, (i < GRID_STEPS)%nat -> (j < GRID_STEPS)%nat ->
     cell i j = if isFinite (v i j) then Math_exp (v i j - maxV) else 0) /\
  (forall i j, (i < GRID_STEPS)%nat -> (j < GRID_STEPS)%nat ->
     isFinite (v i j) = true ->
     is_finite maxV = true /\ (v i j <=? maxV) = true) /\
  ((exists i j, (i < GRID_STEPS)%nat /\ (j < GRID_STEPS)%nat /\
                isFinite (v i j) = true) ->
   exists i j, (i < GRID_STEPS)%nat /\ (j < GRID_STEPS)%nat /\ v i j = maxV) /\
  ((forall i j, (i < GRID_STEPS)%nat -> (j < GRID_STEPS)%nat ->
                isFinite (v i j) = false) ->
   maxV = neg_infinity /\
   forall i j, (i < GRID_STEPS)%nat -> (j < GRID_STEPS)%nat -> cell i j = 0).
Proof.
  unfold buildContourGrid. generalize TARGET_LOG_PROB as target. intros target.
  cbn zeta.
  destruct (GridFacts.track_max_fold (concat (grid_values target)) neg_infinity
              (or_introl eq_refl)) as (J & Hall & _ & Hsel).
  fold (grid_max target) in J, Hall, Hsel.
  assert (Hcell : forall i j, (i < GRID_STEPS)%nat -> (j < GRID_STEPS)%nat ->
            nth j (nth i (buildContourGridWith target) []) 0
            = if isFinite (target (grid_mu i) (grid_sig j))
              then Math_exp (target (grid_mu i) (grid_sig j) - grid_max target)
              else 0).
  { intros i j Hi Hj. now rewrite GridFacts.cell_eq by assumption. }
  split; [exact Hcell|split; [|split]].
  - intros i j Hi Hj Fv. apply Hall; [|exact Fv].
    apply GridFacts.In_grid_values. eauto.
  - intros (i & j & Hi & Hj & Fv).
    destruct (Hall (target (grid_mu i) (grid_sig j))) as [Fmx _]; auto.
    { apply GridFacts.In_grid_values. eauto. }
    destruct Hsel as [E | [Hin _]].
    { rewrite E in Fmx. discriminate. }
    apply GridFacts.In_grid_values in Hin.
    destruct Hin as (i' & j' & Hi' & Hj' & E). exists i', j'. auto.
  - intros Hnone. split.
    + destruct Hsel as [E | [Hin Fx]]; [exact E|].
      apply GridFacts.In_grid_values in Hin.
      destruct Hin as (i' & j' & Hi' & Hj' & E).
      rewrite E in Fx. unfold isFinite in Hnone.
      rewrite Hnone in Fx by assumption. discriminate.
    + intros i j Hi Hj. rewrite Hcell by assumption.
      now rewrite Hnone by assumption.
Qed.

End WithMath.

Lemma samples_extend_witness :
  samples (runSampler (M := reference_Math) fifty)
    = firstn 50 (samples (runSampler (M := reference_Math) initial)) /\
  path (runSampler (M := reference_Math) fifty)
    = firstn 51 (path (runSampler (M := reference_Math) initial)).
Proof.
  exact (samples_extend (M := reference_Math) fifty initial eq_refl eq_refl
           (conj (proj1 (Z.leb_le 0 50) eq_refl) (proj1 (Z.leb_le 50 300) eq_refl))).
Defined.

End MoreSamplerFacts.

(** ** The acceptance badge *)

Module BadgeFacts.
Import JS MCMC AcceptanceBadge PrimFacts MoreFloatFacts.
Local Open Scope float_scope.

(** X10. The badge's colour and its message use different comparisons.
    A green badge always says "good"; an amber badge says "good" exactly
    when the acceptance rate is 0.2, 0.5 or NaN.  The rate 0.2 is reached:
    80 accepted steps out of 400 give exactly the binary64 number 0.2. *)
Theorem badge_colour_and_advice (a : float) :
  (colour a = Emerald -> advice a = Good) /\
  (advice a = Good /\ colour a = Amber <->
   a = 0.2 \/ a = 0.5 \/ is_nan a = true) /\
  of_int 80 / of_int 400 = 0.2.
Proof.
  split; [|split; [|reflexivity]].
  - unfold colour, advice. destruct (0.20 <? a) eqn:H1; [|discriminate].
    destruct (a <? 0.5) eqn:H2; [|discriminate]. intros _.
    apply ltb_not_leb in H1, H2.
    destruct (a <? 0.20) eqn:H3.
    { apply ltb_leb in H3. congruence. }
    destruct (0.5 <? a) eqn:H4; [|reflexivity].
    apply ltb_leb in H4. congruence.
  - unfold colour, advice. split.
    + intros [Hg Hc].
      destruct (a <? 0.20) eqn:H3; [discriminate|].
      destruct (0.5 <? a) eqn:H4; [discriminate|].
      destruct (is_nan a) eqn:Na; [auto|].
      destruct (0.20 <? a) eqn:H1.
      * destruct (a <? 0.5) eqn:H2; [discriminate|].
        right; left.
        eapply eq_of_not_lt; eauto. reflexivity.
      * left. eapply eq_of_not_lt; eauto. reflexivity.
    + intros [-> | [-> | Na]]; [split; reflexivity | split; reflexivity |].
      rewrite (is_nan_eq a Na). split; reflexivity.
Qed.

End BadgeFacts.

(** ** BetaBinomialUpdater: state and buttons *)

Module MoreBetaFacts.
Import JS BetaBinomial BetaBinomialButtons PrimFacts MoreFloatFacts BetaFacts.
Local Open Scope float_scope.

Lemma PRESETS_bounds i p :
  nth_error PRESETS i = Some p -> (1 <= a p /\ 1 <= b p)%Z.
Proof.
  unfold PRESETS.
  destruct i as [|[|[|[|i]]]]; cbn [nth_error]; intros E;
    try (injection E as <-; cbn; lia).
  destruct i; discriminate.
Qed.

Lemma filter_perm {A} (f : A -> bool) l1 l2 :
  Permutation l1 l2 -> length (filter f l1) = length (filter f l2).
Proof.
  induction 1 as [|x l l' _ IH|x y l|l l' l'' _ IH1 _ IH2]; cbn [filter].
  - reflexivity.
  - destruct (f x); cbn [length]; now rewrite IH.
  - destruct (f x), (f y); reflexivity.
  - now rewrite IH1.
Qed.

(** X11. Whenever the component renders: successes and failures add up to
    the number of observations; the posterior parameters add up to the
    prior parameters plus that number; neither posterior parameter is
    below its prior parameter, which is at least 1 (so the quotient of the
    posterior mean has a positive denominator). *)
Theorem render_invariants (u : Updater) (d : Derived) :
  render u = Some d ->
  (successes d + failures d = n d)%Z /\
  (postA d + postB d = priorA d + priorB d + n d)%Z /\
  (1 <= priorA d <= postA d)%Z /\
  (1 <= priorB d <= postB d)%Z /\
  posteriorMean d = of_int (postA d) / of_int (postA d + postB d).
Proof.
  unfold render.
  destruct (nth_error PRESETS (priorPreset u)) as [p|] eqn:E; [|discriminate].
  intros [= <-]. cbn [n postA postB priorA priorB successes failures posteriorMean].
  pose proof (count_split (observations u)) as Hs.
  pose proof (PRESETS_bounds _ _ E).
  repeat split; lia.
Qed.

Lemma render_invariants_witness :
  let u := addObs true initial in
  let d := {| priorA := 1; priorB := 1; successes := 1; failures := 0;
              postA := 2; postB := 1; n := 1; posteriorMean := 2 / 3 |} in
  render u = Some d /\
  (successes d + failures d = n d)%Z /\
  (postA d + postB d = priorA d + priorB d + n d)%Z /\
  (1 <= priorA d <= postA d)%Z /\
  (1 <= priorB d <= postB d)%Z /\
  posteriorMean d = of_int (postA d) / of_int (postA d + postB d).
Proof.
  split; [reflexivity|].
  exact (render_invariants (addObs true initial)
           {| priorA := 1; priorB := 1; successes := 1; failures := 0;
              postA := 2; postB := 1; n := 1; posteriorMean := 2 / 3 |} eq_refl).
Defined.

(** X12. Rendering fails (reading [.a] of [undefined]) exactly when the
    preset index is 4 or more; adding an observation or resetting never
    changes whether it fails. *)
Theorem render_defined (u : Updater) :
  (render u = None <-> (4 <= priorPreset u)%nat) /\
  (forall s, render (addObs s u) = None <-> render u = None) /\
  (render (reset u) = None <-> render u = None).
Proof.
  assert (H : forall v, render v = None <-> (4 <= priorPreset v)%nat).
  { intros v. unfold render.
    destruct (nth_error PRESETS (priorPreset v)) as [p|] eqn:E.
    - split; [discriminate|]. intros Hge.
      assert (E' : nth_error PRESETS (priorPreset v) = None)
        by (apply nth_error_None; exact Hge).
      congruence.
    - split; [|reflexivity]. intros _. apply nth_error_None in E. exact E. }
  split; [apply H|]. split.
  - intros s. rewrite !H. reflexivity.
  - rewrite !H. reflexivity.
Qed.

(** X13. What is rendered does not depend on the order in which the
    observations were added: two states with the same preset whose
    observation lists are permutations of each other render the same. *)
Theorem render_order_independent (u1 u2 : Updater) :
  priorPreset u1 = priorPreset u2 ->
  Permutation (observations u1) (observations u2) ->
  render u1 = render u2.
Proof.
  intros Hp Hperm. unfold render. rewrite Hp.
  rewrite (filter_perm _ _ _ Hperm), (filter_perm (fun v => negb v) _ _ Hperm).
  now rewrite (Permutation_length Hperm).
Qed.

Lemma render_order_independent_witness :
  render (addObs false (addObs true initial))
  = render (addObs true (addObs false initial)).
Proof.
  apply render_order_independent; [reflexivity|].
  apply perm_swap.
Defined.

(** X14. [reset] keeps the prior and drops the observations, so the
    posterior shown is the prior again; a prior button, for a preset that
    exists, shows that preset with no observations whatever was there
    before; and each of [reset], a prior button and [addObs] advances
    [animKey] by one. *)
Theorem reset_returns_to_prior (u : Updater) :
  (forall d, render u = Some d ->
     render (reset u) =
       Some {| priorA := priorA d; priorB := priorB d;
               successes := 0; failures := 0;
               postA := priorA d; postB := priorB d; n := 0;
               posteriorMean := of_int (priorA d) / of_int (priorA d + priorB d) |}) /\
  (forall i p, nth_error PRESETS i = Some p ->
     render (selectPreset i u) =
       Some {| priorA := a p; priorB := b p;
               successes := 0; failures := 0;
               postA := a p; postB := b p; n := 0;
               posteriorMean := of_int (a p) / of_int (a p + b p) |}) /\
  animKey (reset u) = (animKey u + 1)%Z /\
  (forall i, animKey (selectPreset i u) = (animKey u + 1)%Z) /\
  (forall s, animKey (addObs s u) = (animKey u + 1)%Z).
Proof.
  split; [|split; [|repeat split]].
  - intros d. unfold render, reset. cbn [priorPreset observations].
    destruct (nth_error PRESETS (priorPreset u)) as [p|]; [|discriminate].
    intros [= <-]. cbn [priorA priorB filter length Z.of_nat].
    now rewrite !Z.add_0_r.
  - intros i p E. unfold render, selectPreset, reset.
    cbn [priorPreset observations]. rewrite E.
    cbn [filter length Z.of_nat]. now rewrite !Z.add_0_r.
Qed.

(** X15. The "+5 random" button appends exactly five observations, in
    call order, each a success exactly when its random number is below
    0.4 (a NaN counts as a failure); the preset is kept, [animKey]
    advances by 5, and the posterior parameters grow by 5 in total,
    neither of them decreasing. *)
Theorem addFiveRandom_adds_five (random : nat -> float) (u : Updater) :
  observations (addFiveRandom random u)
    = observations u ++ map (fun i => random i <? 0.4) (seq 0 5) /\
  priorPreset (addFiveRandom random u) = priorPreset u /\
  animKey (addFiveRandom random u) = (animKey u + 5)%Z /\
  (forall d, render u = Some d ->
     exists d5, render (addFiveRandom random u) = Some d5 /\
                n d5 = (n d + 5)%Z /\
                (postA d5 + postB d5 = postA d + postB d + 5)%Z /\
                (postA d <= postA d5)%Z /\ (postB d <= postB d5)%Z).
Proof.
  assert (Ho : observations (addFiveRandom random u)
               = observations u ++ map (fun i => random i <? 0.4) (seq 0 5)).
  { unfold addFiveRandom. cbn [seq fold_left addObs observations map].
    now rewrite <- !app_assoc. }
  assert (Hp : priorPreset (addFiveRandom random u) = priorPreset u) by reflexivity.
  split; [exact Ho|]. split; [exact Hp|]. split.
  { unfold addFiveRandom. cbn [seq fold_left addObs animKey]. lia. }
  intros d. unfold render. rewrite Hp, Ho.
  destruct (nth_error PRESETS (priorPreset u)) as [p|]; [|discriminate].
  intros [= <-]. eexists. split; [reflexivity|].
  cbn [n postA postB].
  rewrite !filter_app, !length_app, length_map, length_seq.
  pose proof (count_split (map (fun i => random i <? 0.4) (seq 0 5))) as Hs.
  rewrite length_map, length_seq in Hs.
  repeat split; lia.
Qed.

Section WithMath.
Context {M : Math}.

(** X16. [logBeta] is symmetric in its two arguments, exactly and
    whatever the engine's [Math.log] returns: binary64 addition is
    commutative. *)
Theorem logBeta_symmetric (a b : float) : logBeta a b = logBeta b a.
Proof.
  unfold logBeta. now rewrite (add_comm (logGamma a)), (add_comm a b).
Qed.

End WithMath.
End MoreBetaFacts.

(** ** The Normal-Normal update and its curve *)

Module MoreNormalFacts.
Import JS FloatSpec PrimFacts MoreFloatFacts.
Local Open Scope float_scope.

Section WithMath.
Context {M : Math}.

(** X17. The density drawn by [PosteriorUpdateVisualization] floors its
    scale at 0.1: every [sigma <= 0.1] (zero, negative and [-Infinity]
    included) draws the curve of [sigma = 0.1]; a NaN [sigma] gives NaN;
    and for any other [sigma] the scale used is at least 0.1, so the
    density never divides by zero. *)
Theorem pdf_scale_floor (mu sigma x : float) :
  ((sigma <=? 0.1) = true ->
     PosteriorCurve.pdf mu sigma x = PosteriorCurve.pdf mu 0.1 x) /\
  (is_nan sigma = true -> is_nan (PosteriorCurve.pdf mu sigma x) = true) /\
  (is_nan sigma = false -> (0.1 <=? Math_max sigma 0.1) = true).
Proof.
  split; [|split].
  - intros H. unfold PosteriorCurve.pdf.
    rewrite (Math_max_floor sigma 0.1 _ _ eq_refl H).
    now rewrite (Math_max_floor 0.1 0.1 _ _ eq_refl eq_refl).
  - intros H. unfold PosteriorCurve.pdf. rewrite (Math_max_nan_l _ _ H).
    apply is_nan_mul_l, is_nan_div_r, is_nan_mul_l. reflexivity.
  - intros H. now apply Math_max_spec.
Qed.

End WithMath.

(** X18. The closed-form update has no guard against a zero standard
    deviation: if the prior or the data standard deviation is [0] or
    [-0], the posterior mean computed by [PosteriorUpdateVisualization]
    and by [ChapterInference] is NaN, whatever the other three inputs. *)
Theorem zero_sd_gives_NaN_mean (z mu0 xbar sigma : float) :
  (z =? 0) = true ->
  is_nan (PosteriorUpdateVisualization.posteriorMu mu0 z xbar sigma) = true /\
  is_nan (PosteriorUpdateVisualization.posteriorMu mu0 sigma xbar z) = true /\
  is_nan (ChapterInference.posteriorMu mu0 z xbar sigma) = true /\
  is_nan (ChapterInference.posteriorMu mu0 sigma xbar z) = true.
Proof.
  intros Hz.
  assert (Ez : sq z = 0) by (destruct (eqb_zero_cases z Hz) as [-> | ->]; reflexivity).
  unfold PosteriorUpdateVisualization.posteriorMu,
         PosteriorUpdateVisualization.posteriorVar,
         ChapterInference.posteriorMu, ChapterInference.posteriorSigma,
         ChapterInference.prec0, ChapterInference.precD, Math_sqrt.
  rewrite Ez. unfold sq. split; [|split; [|split]].
  - rewrite is_nan_spec, mul_spec, !div_spec, !add_spec, !div_spec.
    change (Prim2SF 0) with (S754_zero false).
    apply (zero_sd_class (Prim2SF mu0)).
  - rewrite (add_comm (1 / (sigma * sigma))), (add_comm (mu0 / (sigma * sigma))).
    rewrite is_nan_spec, mul_spec, !div_spec, !add_spec, !div_spec.
    change (Prim2SF 0) with (S754_zero false).
    apply (zero_sd_class (Prim2SF xbar)).
  - rewrite is_nan_spec, !mul_spec, !sqrt_spec, !div_spec, !add_spec, !mul_spec,
      !div_spec.
    change (Prim2SF 0) with (S754_zero false).
    apply (zero_sd_class_chapter (Prim2SF mu0)).
  - rewrite (add_comm (1 / (sigma * sigma))),
      (add_comm (1 / (sigma * sigma) * mu0)).
    rewrite is_nan_spec, !mul_spec, !sqrt_spec, !div_spec, !add_spec, !mul_spec,
      !div_spec.
    change (Prim2SF 0) with (S754_zero false).
    apply (zero_sd_class_chapter (Prim2SF xbar)).
Qed.

Lemma zero_sd_gives_NaN_mean_witness :
  is_nan (PosteriorUpdateVisualization.posteriorMu 0 0 2.5 0.8) = true /\
  is_nan (PosteriorUpdateVisualization.posteriorMu 0 0.8 2.5 0) = true /\
  is_nan (ChapterInference.posteriorMu 0 0 2.5 0.8) = true /\
  is_nan (ChapterInference.posteriorMu 0 0.8 2.5 0) = true.
Proof. exact (zero_sd_gives_NaN_mean 0 0 2.5 0.8 eq_refl). Defined.

End MoreNormalFacts.
